(** * Consolidation and aggregation of TPV / markup spreadsheets

    A shallow embedding of [src/utils.py] ([load_data], [compute_summary])
    and of the monthly aggregation of [src/process_data.py] ([main]),
    together with the properties the specification states about them.

    Modelling conventions.
    - Python [str] is [string]; only ASCII has case or counts as white
      space (characters above 127 are uncased and never stripped).
    - A float64 is an exact rational ([Qc]); rounding, overflow and
      infinities are outside the model.  A missing value (NaN, NaT, None)
      is the cell [NaN].
    - The file system and the pandas readers are an explicit [World];
      the scalar parsers of [pd.to_numeric] and [pd.to_datetime] are an
      explicit [Coercers] record.
    - [print] appends to a log, [raise] ends the run: [Run] below. *)

From Stdlib Require Import String Ascii QArith Qcanon ZArith Lia.
From stdpp Require Import base list strings sorting.

Local Open Scope string_scope.

(** ** Python string primitives *)

Module Py.

(** [str.isspace] on ASCII: TAB, LF, VT, FF, CR, FS, GS, RS, US, SPACE. *)
Definition isspace (c : ascii) : bool :=
  let n := nat_of_ascii c in
  (Nat.leb 9 n && Nat.leb n 13) || (Nat.leb 28 n && Nat.leb n 32).

Definition isupper (c : ascii) : bool :=
  let n := nat_of_ascii c in Nat.leb 65 n && Nat.leb n 90.

Definition islower (c : ascii) : bool :=
  let n := nat_of_ascii c in Nat.leb 97 n && Nat.leb n 122.

Definition toupper (c : ascii) : ascii :=
  if islower c then ascii_of_nat (nat_of_ascii c - 32) else c.

Definition tolower (c : ascii) : ascii :=
  if isupper c then ascii_of_nat (nat_of_ascii c + 32) else c.

Fixpoint lstrip (s : string) : string :=
  match s with
  | String c s' => if isspace c then lstrip s' else s
  | EmptyString => EmptyString
  end.

Fixpoint rstrip (s : string) : string :=
  match s with
  | String c s' =>
      match rstrip s' with
      | EmptyString => if isspace c then EmptyString else String c EmptyString
      | r => String c r
      end
  | EmptyString => EmptyString
  end.

(** [s.strip()] *)
Definition strip (s : string) : string := rstrip (lstrip s).

(** The loop of [str.title]: [prev] is [previous_is_cased]. *)
Fixpoint title_from (prev : bool) (s : string) : string :=
  match s with
  | EmptyString => EmptyString
  | String c s' =>
      if islower c then
        String (if prev then c else toupper c) (title_from true s')
      else if isupper c then
        String (if prev then tolower c else c) (title_from true s')
      else String c (title_from false s')
  end.

(** [s.title()] *)
Definition title (s : string) : string := title_from false s.

(** [s.lower()] *)
Fixpoint lower (s : string) : string :=
  match s with
  | EmptyString => EmptyString
  | String c s' => String (tolower c) (lower s')
  end.

(** [s.startswith(p)] *)
Definition startswith (s p : string) : bool := String.prefix p s.

Fixpoint endswith_slash (s : string) : bool :=
  match s with
  | EmptyString => false
  | String c EmptyString => Ascii.eqb c "/"
  | String _ s' => endswith_slash s'
  end.

(** [os.path.join(a, b)] (posixpath, two components). *)
Definition path_join (a b : string) : string :=
  if startswith b "/" then b
  else if String.eqb a "" || endswith_slash a then a ++ b
  else a ++ "/" ++ b.

(** [os.path.splitext(p)[1]].  [seen] tells whether a character other than
    the dot precedes the current position inside the last path component;
    the result is the suffix starting at the last dot that has one. *)
Fixpoint ext_from (seen : bool) (s : string) : string :=
  match s with
  | EmptyString => EmptyString
  | String c s' =>
      if Ascii.eqb c "/" then ext_from false s'
      else if Ascii.eqb c "." then
        match ext_from seen s' with
        | EmptyString =>
            if seen && negb (existsb (Ascii.eqb "/") (list_ascii_of_string s'))
            then s else EmptyString
        | e => e
        end
      else ext_from true s'
  end.

Definition splitext_ext (p : string) : string := ext_from false p.

End Py.

(** ** Data model *)

(** A [datetime64] value, kept as calendar fields; [nanos] is the time of
    day.  Chronological order is the lexicographic order of the fields. *)
Record Timestamp := MkTimestamp { year : Z; month : Z; day : Z; nanos : Z }.

(** One cell of a column: a Python string, a number, a timestamp, or a
    missing value. *)
Inductive cell :=
  | Str (s : string)
  | Num (q : Qc)
  | Date (t : Timestamp)
  | NaN.

(** A [pd.DataFrame] with a default [RangeIndex]: the number of rows and
    the columns in order, each a label with its values.  Labels may repeat. *)
Record DataFrame := MkFrame { nrows : nat; cols : list (string * list cell) }.

Definition labels (df : DataFrame) : list string := map fst (cols df).

(** Every column has one value per row. *)
Definition wf_frame (df : DataFrame) : Prop :=
  Forall (fun c => length (snd c) = nrows df) (cols df).

#[global] Instance Timestamp_eq_dec : EqDecision Timestamp.
Proof. solve_decision. Defined.
#[global] Instance cell_eq_dec : EqDecision cell.
Proof. pose proof Qc_eq_dec. solve_decision. Defined.
#[global] Instance DataFrame_eq_dec : EqDecision DataFrame.
Proof. solve_decision. Defined.

Definition notna (c : cell) : bool :=
  match c with NaN => false | _ => true end.

(** ** Exceptions and output *)

Inductive exn :=
  | OSError (path : string)
  | FileNotFoundError (msg : string)
  | KeyError (key : string)
  | TypeError (msg : string)
  | ValueError (msg : string)
  | AttributeError (msg : string)
  | InvalidIndexError.

(** The lines [load_data] prints:
    "Ignorando arquivo não suportado: {filename}",
    "Falha ao ler {filename}: {exc}" and
    "Arquivo {filename} ignorado: colunas necessárias não encontradas". *)
Inductive notice :=
  | Unsupported (filename : string)
  | ReadFailure (filename : string) (exc : string)
  | MissingColumns (filename : string).

Definition notice_file (n : notice) : string :=
  match n with
  | Unsupported f | ReadFailure f _ | MissingColumns f => f
  end.

#[global] Instance exn_eq_dec : EqDecision exn.
Proof. solve_decision. Defined.
#[global] Instance notice_eq_dec : EqDecision notice.
Proof. solve_decision. Defined.

(** A computation that prints notices and either returns or raises. *)
Record Run (A : Type) := MkRun { outcome : exn + A; printed : list notice }.
Arguments MkRun {A} _ _.
Arguments outcome {A} _.
Arguments printed {A} _.

Definition raise {A} (e : exn) : Run A := MkRun (inl e) [].
Definition print (n : notice) : Run unit := MkRun (inr tt) [n].

#[global] Instance Run_ret : MRet Run := fun A a => MkRun (inr a) [].
#[global] Instance Run_bind : MBind Run := fun A B k m =>
  match outcome m with
  | inl e => MkRun (inl e) (printed m)
  | inr a => let r := k a in MkRun (outcome r) (printed m ++ printed r)
  end.

(** [for x in xs: acc = body(acc, x)] *)
Fixpoint for_each {A S} (body : S -> A -> Run S) (acc : S) (xs : list A)
  : Run S :=
  match xs with
  | [] => mret acc
  | x :: xs' => acc' ← body acc x; for_each body acc' xs'
  end.

Definition returns {A} (m : Run A) (a : A) : Prop := outcome m = inr a.
Definition raises {A} (m : Run A) (e : exn) : Prop := outcome m = inl e.

(** ** The pandas operations the loader uses *)

(** [df.rename(columns={c: f(c) for c in df.columns})] *)
Definition rename (f : string -> string) (df : DataFrame) : DataFrame :=
  MkFrame (nrows df) (map (fun c => (f (fst c), snd c)) (cols df)).

(** The columns carrying the label [key], in order. *)
Definition columns_named (key : string) (df : DataFrame) : list (list cell) :=
  map snd (filter (fun c => fst c = key) (cols df)).

(** What [df[key]] evaluates to: a Series when the label occurs once, a
    DataFrame when it occurs several times. *)
Inductive selection :=
  | Series (values : list cell)
  | SubFrame (columns : list (list cell)).

(** [df[key]] *)
Definition getitem (df : DataFrame) (key : string) : Run selection :=
  match columns_named key df with
  | [] => raise (KeyError key)
  | [values] => mret (Series values)
  | several => mret (SubFrame several)
  end.

(** [df[key] = values]: every column labelled [key] is replaced; a new
    column is appended when there is none. *)
Definition setitem (df : DataFrame) (key : string) (values : list cell)
  : DataFrame :=
  if decide (key ∈ labels df) then
    MkFrame (nrows df)
      (map (fun c => if decide (fst c = key) then (key, values) else c)
         (cols df))
  else MkFrame (nrows df) (cols df ++ [(key, values)])%list.

(** The scalar conversions of pandas, which the repository does not define:
    how a string or a timestamp reads as a number, and how a string or a
    number reads as a timestamp ([None]: it does not). *)
Record Coercers := MkCoercers {
  float_of_string : string -> option Qc;
  float_of_datetime : Timestamp -> option Qc;
  datetime_of_string : string -> option Timestamp;
  datetime_of_number : Qc -> option Timestamp
}.

Definition of_option {A} (f : A -> cell) (o : option A) : cell :=
  match o with Some a => f a | None => NaN end.

Section Coercion.
Context (P : Coercers).

Definition to_numeric_scalar (c : cell) : cell :=
  match c with
  | Num q => Num q
  | Str s => of_option Num (float_of_string P s)
  | Date t => of_option Num (float_of_datetime P t)
  | NaN => NaN
  end.

Definition to_datetime_scalar (c : cell) : cell :=
  match c with
  | Date t => Date t
  | Str s => of_option Date (datetime_of_string P s)
  | Num q => of_option Date (datetime_of_number P q)
  | NaN => NaN
  end.

(** [pd.to_numeric(arg, errors="coerce")] *)
Definition to_numeric (arg : selection) : Run (list cell) :=
  match arg with
  | Series values => mret (map to_numeric_scalar values)
  | SubFrame _ =>
      raise (TypeError "arg must be a list, tuple, 1-d array, or Series")
  end.

(** [pd.to_datetime(arg, errors="coerce")] *)
Definition to_datetime (arg : selection) : Run (list cell) :=
  match arg with
  | Series values => mret (map to_datetime_scalar values)
  | SubFrame _ => raise (ValueError "cannot assemble with duplicate keys")
  end.

End Coercion.

(** First occurrences, in order of appearance. *)
Fixpoint unique_from (seen l : list string) : list string :=
  match l with
  | [] => []
  | x :: l' =>
      if decide (x ∈ seen) then unique_from seen l'
      else x :: unique_from (x :: seen) l'
  end.

Definition has_duplicates (l : list string) : bool :=
  negb (bool_decide (NoDup l)).

(** The values a frame contributes to the column [key] of a
    concatenation: its own column, or missing values for each of its rows. *)
Definition column_or_nan (key : string) (df : DataFrame) : list cell :=
  match columns_named key df with
  | values :: _ => values
  | [] => replicate (nrows df) NaN
  end.

Definition total_rows (frames : list DataFrame) : nat :=
  foldr (fun df n => nrows df + n) 0 frames.

(** Stacking by position: the values of [below] go under those of [df],
    column by column. *)
Definition stack (df below : DataFrame) : DataFrame :=
  MkFrame (nrows df + nrows below)
    (zip_with (fun c c' => (fst c, snd c ++ snd c')%list)
       (cols df) (cols below)).

(** The frame with the columns of [df] and no row. *)
Definition no_rows (df : DataFrame) : DataFrame :=
  MkFrame 0 (map (fun c => (fst c, [])) (cols df)).

(** Reindexing on the column axis: one column per key, the frames one
    under the other. *)
Definition reindexed (keys : list string) (frames : list DataFrame)
  : DataFrame :=
  MkFrame (total_rows frames)
    (map (fun key => (key, flat_map (column_or_nan key) frames)) keys).

(** [pd.concat(frames, ignore_index=True)].  Frames with identical column
    indexes are stacked by position; otherwise the result has the union of
    the labels, and a frame with a repeated label cannot be reindexed. *)
Definition concat (frames : list DataFrame) : Run DataFrame :=
  match frames with
  | [] => raise (ValueError "No objects to concatenate")
  | first :: _ =>
      if forallb (fun df => bool_decide (labels df = labels first)) frames
      then mret (foldr stack (no_rows first) frames)
      else if existsb (fun df => has_duplicates (labels df)) frames
      then raise InvalidIndexError
      else mret (reindexed (unique_from [] (flat_map labels frames)) frames)
  end.

(** ** The loader *)

(** What the loader sees of the outside: the directory listing
    ([None]: [os.listdir] raises), [os.path.isfile], and the two readers,
    which return a frame or raise with a message. *)
Record World := MkWorld {
  listdir : string -> option (list string);
  isfile : string -> bool;
  read_csv : string -> string -> string + DataFrame;
  read_excel : string -> string + DataFrame
}.

Definition string_le (s t : string) : Prop := String.leb s t = true.

#[global] Instance string_le_dec : RelDecision string_le.
Proof. intros s t. unfold string_le. apply _. Defined.

(** [sorted(names)] *)
Definition sorted (names : list string) : list string :=
  merge_sort string_le names.

Definition required_cols : list string := ["Cliente"; "Tpv"; "Markup"].

(** [encoding or "utf-8"] *)
Definition encoding_or_utf8 (encoding : option string) : string :=
  match encoding with
  | Some e => if String.eqb e "" then "utf-8" else e
  | None => "utf-8"
  end.

Inductive reader := CsvReader | ExcelReader.

(** The dispatch on the lower-cased extension. *)
Definition reader_for (ext : string) : option reader :=
  if bool_decide (ext ∈ [".csv"]) then Some CsvReader
  else if bool_decide (ext ∈ [".xlsx"; ".xls"]) then Some ExcelReader
  else None.

Section Loader.
Context (w : World) (P : Coercers).

Definition read (r : reader) (filepath : string) (encoding : option string)
  : string + DataFrame :=
  match r with
  | CsvReader => read_csv w filepath (encoding_or_utf8 encoding)
  | ExcelReader => read_excel w filepath
  end.

(** [{c.title() for c in df.columns}] *)
Definition titled (df : DataFrame) : list string := map Py.title (labels df).

(** The part of the loop body after the required-columns check. *)
Definition coerce_columns (df : DataFrame) : Run DataFrame :=
  df ← (if bool_decide ("Data" ∈ titled df) then
          arg ← getitem df "Data";
          values ← to_datetime P arg;
          mret (setitem df "Data" values)
        else mret df);
  arg ← getitem df "Tpv";
  values ← to_numeric P arg;
  let df := setitem df "Tpv" values in
  arg ← getitem df "Markup";
  values ← to_numeric P arg;
  mret (setitem df "Markup" values).

(** One iteration of the loop of [load_data]; the result is [all_frames]
    after it. *)
Definition load_file (data_dir : string) (encoding : option string)
    (all_frames : list DataFrame) (filename : string)
  : Run (list DataFrame) :=
  if Py.startswith filename "~" then mret all_frames
  else
    let filepath := Py.path_join data_dir filename in
    if negb (isfile w filepath) then mret all_frames
    else
      let ext := Py.lower (Py.splitext_ext filename) in
      match reader_for ext with
      | None => print (Unsupported filename);; mret all_frames
      | Some r =>
          match read r filepath encoding with
          | inl exc => print (ReadFailure filename exc);; mret all_frames
          | inr df =>
              let df := rename (fun c => Py.title (Py.strip c)) df in
              if negb (bool_decide (required_cols ⊆ titled df)) then
                print (MissingColumns filename);; mret all_frames
              else
                df ← coerce_columns df;
                mret (all_frames ++ [df])%list
          end
      end.

Definition no_valid_file : exn :=
  FileNotFoundError "Nenhum arquivo válido encontrado em data_dir".

Definition load_data (data_dir : string) (encoding : option string)
  : Run DataFrame :=
  names ← match listdir w data_dir with
          | Some names => mret names
          | None => raise (OSError data_dir)
          end;
  all_frames ← for_each (load_file data_dir encoding) [] (sorted names);
  match all_frames with
  | [] => raise no_valid_file
  | _ => concat all_frames
  end.

End Loader.

(** ** Grouping *)

Definition ts_le (a b : Timestamp) : Prop :=
  (year a < year b \/ (year a = year b /\
  (month a < month b \/ (month a = month b /\
  (day a < day b \/ (day a = day b /\ nanos a <= nanos b))))))%Z.

Definition ts_lt (a b : Timestamp) : Prop := ts_le a b /\ a <> b.

(** The order in which group keys are sorted: numbers, then strings, then
    timestamps; missing values last. *)
Definition cell_le (a b : cell) : Prop :=
  match a, b with
  | Num x, Num y => (x <= y)%Qc
  | Num _, _ => True
  | Str _, Num _ => False
  | Str s, Str t => string_le s t
  | Str _, _ => True
  | Date _, (Num _ | Str _) => False
  | Date s, Date t => ts_le s t
  | Date _, NaN => True
  | NaN, NaN => True
  | NaN, _ => False
  end.

Definition cell_lt (a b : cell) : Prop := cell_le a b /\ a <> b.

#[global] Instance Qcle_dec : RelDecision Qcle.
Proof.
  intros x y. destruct (Qclt_le_dec y x) as [H|H].
  - right. apply Qclt_not_le, H.
  - left. exact H.
Defined.

#[global] Instance ts_le_dec : RelDecision ts_le.
Proof. intros a b. unfold ts_le. apply _. Defined.

#[global] Instance cell_le_dec : RelDecision cell_le.
Proof. intros [s|x|s|] [t|y|t|]; simpl; apply _. Defined.

(** The group keys of [groupby(..., sort=True, dropna=True)]: the distinct
    non-missing labels, sorted. *)
Definition group_keys (keys : list cell) : list cell :=
  merge_sort cell_le (remove_dups (filter (fun k => notna k = true) keys)).

(** A float64 column: numbers and missing values only.  What pandas does
    when asked to sum or average an object column is not modelled beyond
    the fact that the aggregation is not numeric: [float_column] raises. *)
Definition as_float (c : cell) : option (option Qc) :=
  match c with
  | Num q => Some (Some q)
  | NaN => Some None
  | Str _ | Date _ => None
  end.

Definition float_column (values : list cell) : Run (list (option Qc)) :=
  match mapM as_float values with
  | Some xs => mret xs
  | None => raise (TypeError "agg function failed [dtype->object]")
  end.

Definition Qc_of_nat (n : nat) : Qc := Q2Qc (inject_Z (Z.of_nat n)).

Section Kernels.
Context (k : cell).

(** One step of the grouped sum for the group [k]: [sumx] grows by each
    non-missing value carrying the label. *)
Definition sum_step (sumx : Qc) (row : cell * option Qc) : Qc :=
  match row with
  | (label, Some x) => if decide (label = k) then (sumx + x)%Qc else sumx
  | (_, None) => sumx
  end.

(** One step of the grouped mean: the running sum and the number of
    non-missing observations. *)
Definition mean_step (acc : Qc * nat) (row : cell * option Qc) : Qc * nat :=
  match row with
  | (label, Some x) =>
      if decide (label = k) then ((fst acc + x)%Qc, S (snd acc)) else acc
  | (_, None) => acc
  end.

(** One step of the grouped count of non-missing values. *)
Definition count_step (n : nat) (row : cell * cell) : nat :=
  if decide (fst row = k) then (if notna (snd row) then S n else n) else n.

(** ["sum"] with [min_count=0]: an all-missing group sums to zero. *)
Definition group_sum (keys : list cell) (values : list (option Qc)) : Qc :=
  fold_left sum_step (zip keys values) (Q2Qc 0).

(** ["mean"]: undefined when the group has no observation. *)
Definition group_mean (keys : list cell) (values : list (option Qc))
  : option Qc :=
  let acc := fold_left mean_step (zip keys values) (Q2Qc 0, 0) in
  match snd acc with
  | 0 => None
  | S _ => Some (fst acc / Qc_of_nat (snd acc))%Qc
  end.

(** ["count"] *)
Definition group_count (keys values : list cell) : nat :=
  fold_left count_step (zip keys values) 0.

End Kernels.

(** The grouping column of [df.groupby(key)]. *)
Definition grouper (df : DataFrame) (key : string) : Run (list cell) :=
  arg ← getitem df key;
  match arg with
  | Series values => mret values
  | SubFrame _ => raise (ValueError "Grouper not 1-dimensional")
  end.

(** The column an aggregation [(key, func)] reads. *)
Definition agg_column (df : DataFrame) (key : string) : Run (list cell) :=
  arg ← getitem df key;
  match arg with
  | Series values => mret values
  | SubFrame _ => raise (ValueError "Must produce aggregated value")
  end.

(** ** The aggregator *)

Record SummaryRow := MkSummaryRow {
  Cliente : cell;
  Tpv_Total : Qc;
  Markup_Medio : option Qc;
  Registros : nat
}.

Definition compute_summary (df : DataFrame) : Run (list SummaryRow) :=
  keys ← grouper df "Cliente";
  tpv ← agg_column df "Tpv" ≫= float_column;
  markup ← agg_column df "Markup" ≫= float_column;
  cliente ← agg_column df "Cliente";
  mret (map (fun k =>
               MkSummaryRow k (group_sum k keys tpv)
                 (group_mean k keys markup) (group_count k keys cliente))
          (group_keys keys)).

(** ** The monthly series of [main] *)

Module Monthly.
Record Row := MkRow {
  AnoMes : cell;
  Tpv_Total : Qc;
  Markup_Medio : option Qc
}.
End Monthly.

(** [df.dropna(subset=[key])]: the rows in which no column labelled [key]
    is missing. *)
Definition row_kept (key : string) (df : DataFrame) (i : nat) : bool :=
  forallb (fun values => notna (nth i values NaN)) (columns_named key df).

Definition take_rows {A} (keep : list nat) (values : list A) : list A :=
  omap (fun i => values !! i) keep.

Definition dropna (key : string) (df : DataFrame) : DataFrame :=
  let keep := filter (fun i => row_kept key df i = true) (seq 0 (nrows df)) in
  MkFrame (length keep)
    (map (fun c => (fst c, take_rows keep (snd c))) (cols df)).

(** [df.empty] *)
Definition empty (df : DataFrame) : bool :=
  bool_decide (nrows df = 0) || bool_decide (cols df = []).

(** [.dt.to_period("M").dt.to_timestamp()] on one value. *)
Definition month_start (t : Timestamp) : Timestamp :=
  MkTimestamp (year t) (month t) 1 0.

Definition as_datetime (c : cell) : option Timestamp :=
  match c with Date t => Some t | _ => None end.

(** The [.dt] accessor needs a datetime column. *)
Definition dt_month_start (arg : selection) : Run (list cell) :=
  match arg with
  | Series values =>
      match mapM as_datetime values with
      | Some ts => mret (map (fun t => Date (month_start t)) ts)
      | None =>
          raise (AttributeError
                   "Can only use .dt accessor with datetimelike values")
      end
  | SubFrame _ =>
      raise (AttributeError "'DataFrame' object has no attribute 'dt'")
  end.

(** The value of [ts_summary] in [main], when it is computed. *)
Definition ts_summary (df : DataFrame) : Run (option (list Monthly.Row)) :=
  if bool_decide ("Data" ∈ labels df) then
    let df_date := dropna "Data" df in
    if negb (empty df_date) then
      arg ← getitem df_date "Data";
      values ← dt_month_start arg;
      let df_date := setitem df_date "AnoMes" values in
      keys ← grouper df_date "AnoMes";
      tpv ← agg_column df_date "Tpv" ≫= float_column;
      markup ← agg_column df_date "Markup" ≫= float_column;
      mret (Some (map (fun k =>
                         Monthly.MkRow k (group_sum k keys tpv)
                           (group_mean k keys markup))
                    (group_keys keys)))
    else mret None
  else mret None.

(** ** Vocabulary of the specification *)

(** A frame whose [Tpv] and [Markup] labels, and [Data] label if any,
    each name a single column. *)
Definition single_columns (df : DataFrame) : Prop :=
  (exists v, columns_named "Tpv" df = [v])
  /\ (exists v, columns_named "Markup" df = [v])
  /\ ("Data" ∈ labels df -> exists v, columns_named "Data" df = [v]).

Section Vocabulary.
Context (w : World) (P : Coercers).
Context (data_dir : string) (encoding : option string).

(** An entry the loop looks at: not a temporary file, and a regular file. *)
Definition discovered (filename : string) : bool :=
  negb (Py.startswith filename "~")
  && isfile w (Py.path_join data_dir filename).

(** The frame a discovered file with a supported extension parses to. *)
Definition parsed (filename : string) : option DataFrame :=
  if discovered filename then
    match reader_for (Py.lower (Py.splitext_ext filename)) with
    | Some r =>
        match read w r (Py.path_join data_dir filename) encoding with
        | inr df => Some df
        | inl _ => None
        end
    | None => None
    end
  else None.

(** Column names stripped of surrounding white space and title-cased. *)
Definition normalized (df : DataFrame) : DataFrame :=
  rename (fun c => Py.title (Py.strip c)) df.

Definition has_required (df : DataFrame) : bool :=
  bool_decide (required_cols ⊆ labels (normalized df)).

(** The frame with [g] applied to every value of the columns labelled
    [key]. *)
Definition apply_col (key : string) (g : cell -> cell) (df : DataFrame)
  : DataFrame :=
  MkFrame (nrows df)
    (map (fun c => if decide (fst c = key) then (fst c, map g (snd c)) else c)
       (cols df)).

(** The frame with its [Data] column read as timestamps and its [Tpv] and
    [Markup] columns read as numbers, cell by cell. *)
Definition coerced (df : DataFrame) : DataFrame :=
  MkFrame (nrows df)
    (map (fun c =>
            if decide (fst c = "Data") then
              (fst c, map (to_datetime_scalar P) (snd c))
            else if decide (fst c ∈ ["Tpv"; "Markup"]) then
              (fst c, map (to_numeric_scalar P) (snd c))
            else c)
       (cols df)).

(** The exceptions the coercion of a file's columns can raise. *)
Definition column_error (e : exn) : Prop :=
  match e with
  | KeyError _ | TypeError _ | ValueError _ | InvalidIndexError => True
  | OSError _ | FileNotFoundError _ | AttributeError _ => False
  end.

(** A file is loadable when the coercion of its columns cannot raise. *)
Definition loadable (filename : string) : Prop :=
  forall raw, parsed filename = Some raw -> has_required raw = true ->
    single_columns (normalized raw).

(** What a file contributes to the Consolidated Dataset. *)
Definition contribution (filename : string) : option DataFrame :=
  match parsed filename with
  | Some df =>
      if has_required df then Some (coerced (normalized df)) else None
  | None => None
  end.

(** The files that contribute, in the order they are processed. *)
Definition retained (names : list string) : list string :=
  filter (fun f => is_Some (contribution f)) (sorted names).

(** A file none of whose headers normalise to the same name. *)
Definition distinct_headers (filename : string) : Prop :=
  forall raw, parsed filename = Some raw -> NoDup (labels (normalized raw)).

(** The notices the loop prints while it processes one entry. *)
Definition notices (filename : string) : list notice :=
  printed (load_file w P data_dir encoding [] filename).

End Vocabulary.

(** The readers return rectangular frames. *)
Definition wf_world (w : World) : Prop :=
  forall raw,
    (exists path enc, read_csv w path enc = inr raw)
    \/ (exists path, read_excel w path = inr raw) ->
    wf_frame raw.

(** The rows of a frame, each a list of labelled cells in column order. *)
Definition row_at (df : DataFrame) (i : nat) : list (string * cell) :=
  map (fun c => (fst c, nth i (snd c) NaN)) (cols df).

Definition records (df : DataFrame) : list (list (string * cell)) :=
  map (row_at df) (seq 0 (nrows df)).

(** The row of a frame, read along the keys of a union of labels. *)
Definition reindexed_row (keys : list string) (fr : DataFrame) (i : nat)
  : list (string * cell) :=
  map (fun key => (key, nth i (column_or_nan key fr) NaN)) keys.

(** An output row carries a file row: every labelled cell of the file row
    is in it, and whatever else it holds is missing. *)
Definition carries (r r' : list (string * cell)) : Prop :=
  (forall p, p ∈ r -> p ∈ r') /\ (forall p, p ∈ r' -> p ∈ r \/ snd p = NaN).

Definition numeric_or_missing (c : cell) : Prop :=
  match c with Num _ | NaN => True | Str _ | Date _ => False end.

Definition datetime_or_missing (c : cell) : Prop :=
  match c with Date _ | NaN => True | Str _ | Num _ => False end.

(** The values of the rows labelled [k]. *)
Definition group_values {A} (k : cell) (keys : list cell) (values : list A)
  : list A :=
  map snd (filter (fun p => fst p = k) (zip keys values)).

Definition non_missing {A} (values : list (option A)) : list A :=
  omap id values.

(** The values the kernels of the group [k] read in one row. *)
Definition observed {A} (k : cell) (row : cell * option A) : list A :=
  if decide (fst row = k) then option_list (snd row) else [].

Definition Qc_sum (xs : list Qc) : Qc := foldr Qcplus (Q2Qc 0) xs.

(** The month a cell falls in, as the first instant of that month. *)
Definition month_of (c : cell) : option Timestamp :=
  month_start <$> as_datetime c.

(** The values at the positions where the mask holds. *)
Definition masked {A} (mask : list bool) (values : list A) : list A :=
  map snd (filter (fun p => fst p = true) (zip mask values)).

(** The arithmetic mean; undefined for no value. *)
Definition mean (xs : list Qc) : option Qc :=
  match xs with
  | [] => None
  | _ => Some (Qc_sum xs / Qc_of_nat (length xs))%Qc
  end.

(** A frame whose [Cliente], [Tpv] and [Markup] columns are single columns,
    the last two of floats. *)
Record Consolidated (df : DataFrame) (keys : list cell)
    (tpv markup : list (option Qc)) : Prop := {
  cons_cliente : columns_named "Cliente" df = [keys];
  cons_tpv : exists cells,
    columns_named "Tpv" df = [cells] /\ mapM as_float cells = Some tpv;
  cons_markup : exists cells,
    columns_named "Markup" df = [cells] /\ mapM as_float cells = Some markup
}.

(** ** Sample inputs

    Concrete coercers and worlds on which the definitions are run below.
    The sample coercers read unsigned decimal integers and dates written
    [YYYY-MM-DD]; every other string is not a number, not a date. *)

Module Sample.

Fixpoint digits (acc : N) (s : string) : option N :=
  match s with
  | EmptyString => Some acc
  | String c s' =>
      let n := N_of_ascii c in
      if (N.leb 48 n && N.leb n 57)%bool
      then digits (acc * 10 + (n - 48))%N s'
      else None
  end.

Definition natural (s : string) : option Z :=
  match s with
  | EmptyString => None
  | _ => Z.of_N <$> digits 0 s
  end.

Definition Qc_of_Z (z : Z) : Qc := Q2Qc (inject_Z z).

Definition date (s : string) : option Timestamp :=
  if bool_decide (String.length s = 10
                  /\ String.get 4 s = Some "-"%char
                  /\ String.get 7 s = Some "-"%char) then
    y ← natural (String.substring 0 4 s);
    m ← natural (String.substring 5 2 s);
    d ← natural (String.substring 8 2 s);
    Some (MkTimestamp y m d 0)
  else None.

Definition coercers : Coercers :=
  MkCoercers (fun s => Qc_of_Z <$> natural s) (fun _ => None)
    date (fun _ => None).

Definition n (z : Z) : cell := Num (Qc_of_Z z).

(** A directory [data] holding the given files; every path under it is a
    regular file, every other directory is inaccessible. *)
Definition directory (files : list (string * (string + DataFrame))) : World :=
  let content path :=
    from_option (fun f => snd (snd f)) (inl "No such file or directory")
      (list_find (fun f => Py.path_join "data" (fst f) = path) files) in
  MkWorld
    (fun dir => if String.eqb dir "data" then Some (map fst files) else None)
    (fun path => bool_decide (is_Some
       (list_find (fun f => Py.path_join "data" (fst f) = path) files)))
    (fun path _ => content path)
    content.

(** The end-to-end scenario of the specification: one CSV, three rows. *)
Definition acme_csv : DataFrame :=
  MkFrame 3
    [ ("cliente ", [Str "Acme"; Str "Acme"; Str "Globex"]);
      ("TPV", [n 100; n 200; n 50]);
      ("Markup", [n 10; n 20; n 5]) ].

Definition acme_world : World :=
  directory [ ("vendas.csv", inr acme_csv); ("leia-me.txt", inl "") ].

(** A second file with a [Data] column, a non-numeric [Tpv] cell and a row
    without customer, next to the first one. *)
Definition dated_csv : DataFrame :=
  MkFrame 4
    [ ("Data", [Str "2024-01-05"; Str "2024-01-28"; Str "n/d";
                Str "2023-12-31"]);
      ("CLIENTE", [Str "Acme"; NaN; Str "Initech"; Str "Acme"]);
      ("tpv", [Str "70"; Str "30"; Str "5"; Str "abc"]);
      ("markup", [Str "4"; NaN; Str "x"; Str "6"]) ].

Definition mixed_world : World :=
  directory
    [ ("vendas.csv", inr acme_csv);
      ("~$vendas.csv", inr acme_csv);
      ("antigo.CSV", inr dated_csv);
      ("quebrado.xlsx", inl "File is not a zip file");
      ("sem_markup.csv",
        inr (MkFrame 1 [("Cliente", [Str "Acme"]); ("Tpv", [n 1])])) ].

(** A file in which two headers normalise to [Tpv]. *)
Definition twice_tpv_csv : DataFrame :=
  MkFrame 1
    [ ("Cliente", [Str "Acme"]); ("TPV", [n 100]); ("tpv", [n 100]);
      ("Markup", [n 10]) ].

Definition twice_tpv_world : World :=
  directory [ ("a.csv", inr acme_csv); ("b.csv", inr twice_tpv_csv) ].

(** A file with a customer cell left empty. *)
Definition blank_customer_csv : DataFrame :=
  MkFrame 2
    [ ("Cliente", [Str "Acme"; NaN]); ("Tpv", [n 100; n 7]);
      ("Markup", [n 10; n 3]) ].

Definition blank_customer_world : World :=
  directory [ ("a.csv", inr blank_customer_csv) ].

(** A consolidated dataset: a row without customer, a customer whose
    [Tpv] and [Markup] are all missing, a row without date. *)
Definition dataset_keys : list cell :=
  [Str "Acme"; NaN; Str "Initech"; Str "Acme"; Str "Globex"].

Definition dataset_tpv : list (option Qc) :=
  [Some (Qc_of_Z 100); Some (Qc_of_Z 30); None; Some (Qc_of_Z 200);
   Some (Qc_of_Z 50)].

Definition dataset_markup : list (option Qc) :=
  [Some (Qc_of_Z 10); None; None; Some (Qc_of_Z 20); Some (Qc_of_Z 5)].

Definition dataset_data : list cell :=
  [Date (MkTimestamp 2024 1 5 0); Date (MkTimestamp 2024 1 28 0); NaN;
   Date (MkTimestamp 2023 12 31 0); Date (MkTimestamp 2024 1 9 0)].

Definition dataset : DataFrame :=
  MkFrame 5
    [ ("Data", dataset_data);
      ("Cliente", dataset_keys);
      ("Tpv", map (of_option Num) dataset_tpv);
      ("Markup", map (of_option Num) dataset_markup) ].

End Sample.

(** ** More vocabulary for the loader *)

Section Diagnostics.
Context (w : World) (data_dir : string) (encoding : option string).

(** The line a file gets when the loop turns it down. *)
Definition diagnostic (filename : string) : option notice :=
  if discovered w data_dir filename then
    match reader_for (Py.lower (Py.splitext_ext filename)) with
    | None => Some (Unsupported filename)
    | Some r =>
        match read w r (Py.path_join data_dir filename) encoding with
        | inl exc => Some (ReadFailure filename exc)
        | inr raw =>
            if has_required raw then None else Some (MissingColumns filename)
        end
    end
  else None.

End Diagnostics.

(** The world in which [os.listdir] enumerates [names], all else equal. *)
Definition relisted (w : World) (names : list string) : World :=
  MkWorld (fun _ => Some names) (isfile w) (read_csv w) (read_excel w).

(** The exceptions that escape [load_data]. *)
Definition loader_error (data_dir : string) (e : exn) : Prop :=
  e = OSError data_dir
  \/ e = no_valid_file
  \/ e = TypeError "arg must be a list, tuple, 1-d array, or Series"
  \/ e = ValueError "cannot assemble with duplicate keys"
  \/ e = InvalidIndexError.

(** What the coercion of a column does to one cell. *)
Definition passed_through (label : string) (c c' : cell) : Prop :=
  match c with
  | NaN => c' = NaN
  | Num _ => label <> "Data" -> c' = c
  | Date _ => label = "Data" -> c' = c
  | Str _ => label ∉ ["Data"; "Tpv"; "Markup"] -> c' = c
  end.

(** ** The script [main] *)

Inductive chart_kind := BarChart | LineChart.

(** A Plotly figure, as far as the script determines it: [px.bar] or
    [px.line] over two columns of a frame, with a title, the two axis
    labels, and the tick angle [update_layout] sets. *)
Record Figure := MkFigure {
  fig_kind : chart_kind;
  fig_title : string;
  fig_x_label : string;
  fig_y_label : string;
  fig_x : list cell;
  fig_y : list (option Qc);
  fig_tickangle : option Z
}.

(** The lines [main] prints itself:
    "Lendo planilhas de {data_dir} ...", "Resumo por cliente:",
    [summary.head()], "Gráfico salvo em {path}",
    "Gráfico temporal salvo em {path}", "Processamento concluído.". *)
Inductive line :=
  | Reading (data_dir : string)
  | SummaryHeader
  | SummaryHead (rows : list SummaryRow)
  | ChartSaved (path : string)
  | TimeChartSaved (path : string)
  | Finished.

Inductive effect :=
  | MakeDirs (path : string)
  | Notice (n : notice)
  | Say (l : line)
  | WriteHtml (path : string) (fig : Figure).

(** What the disk answers to [Path.mkdir(parents=True, exist_ok=True)] and
    to [fig.write_html]: [None] when it is done, or the exception. *)
Record Disk := MkDisk {
  mkdir : string -> option exn;
  write_html : string -> Figure -> option exn
}.

(** A script: the effects in order, and a result or an exception. *)
Record Script (A : Type) := MkScript { result : exn + A; effects : list effect }.
Arguments MkScript {A} _ _.
Arguments result {A} _.
Arguments effects {A} _.

#[global] Instance Script_ret : MRet Script := fun A a => MkScript (inr a) [].
#[global] Instance Script_bind : MBind Script := fun A B k m =>
  match result m with
  | inl e => MkScript (inl e) (effects m)
  | inr a => let r := k a in MkScript (result r) (effects m ++ effects r)
  end.

(** A call of a function of [utils]: its notices are printed. *)
Definition call {A} (m : Run A) : Script A :=
  MkScript (outcome m) (map Notice (printed m)).

Definition say (l : line) : Script unit := MkScript (inr tt) [Say l].

Definition make_dirs (disk : Disk) (path : string) : Script unit :=
  match mkdir disk path with
  | None => MkScript (inr tt) [MakeDirs path]
  | Some e => MkScript (inl e) []
  end.

Definition write (disk : Disk) (path : string) (fig : Figure) : Script unit :=
  match write_html disk path fig with
  | None => MkScript (inr tt) [WriteHtml path fig]
  | Some e => MkScript (inl e) []
  end.

(** The order of [sort_values(..., ascending=False)]: larger values first,
    missing values last. *)
Definition desc (a b : option Qc) : Prop :=
  match a, b with
  | Some x, Some y => (y <= x)%Qc
  | _, None => True
  | None, Some _ => False
  end.

#[global] Instance desc_dec : RelDecision desc.
Proof. intros [x|] [y|]; simpl; apply _. Defined.

(** Rows compared by one of their columns. *)
Definition desc_by {A} (col : A -> option Qc) (a b : A) : Prop :=
  desc (col a) (col b).

#[global] Instance desc_by_dec {A} (col : A -> option Qc)
  : RelDecision (desc_by col).
Proof. intros a b. unfold desc_by. apply _. Defined.

(** [rows.sort_values(col, ascending=False)].  The default sort of pandas
    does not say in which order rows with equal values come; this model
    picks one such order, and the properties below do not depend on it. *)
Definition sort_values_desc {A} (col : A -> option Qc) (rows : list A)
  : list A :=
  merge_sort (desc_by col) rows.

Definition bar_chart (title x_label y_label : string)
    (rows : list SummaryRow) (y : SummaryRow -> option Qc) : Figure :=
  MkFigure BarChart title x_label y_label (map Cliente rows) (map y rows)
    (Some (-45)%Z).

Definition line_chart (title x_label y_label : string)
    (rows : list Monthly.Row) (y : Monthly.Row -> option Qc) : Figure :=
  MkFigure LineChart title x_label y_label (map Monthly.AnoMes rows)
    (map y rows) None.

Section Main.
Context (w : World) (P : Coercers) (disk : Disk).

Definition main (data_dir report_dir : string) : Script unit :=
  make_dirs disk report_dir;;
  say (Reading data_dir);;
  df ← call (load_data w P data_dir None);
  summary ← call (compute_summary df);
  say SummaryHeader;;
  say (SummaryHead (take 5 summary));;
  let summary_sorted_tpv :=
    sort_values_desc (fun r => Some (Tpv_Total r)) summary in
  let summary_sorted_markup := sort_values_desc Markup_Medio summary in
  let output_tpv := Py.path_join report_dir "tpv_por_cliente.html" in
  write disk output_tpv
    (bar_chart "TPV total por cliente" "Cliente" "TPV Total"
       summary_sorted_tpv (fun r => Some (Tpv_Total r)));;
  say (ChartSaved output_tpv);;
  let output_markup := Py.path_join report_dir "markup_por_cliente.html" in
  write disk output_markup
    (bar_chart "Markup médio por cliente" "Cliente" "Markup médio"
       summary_sorted_markup Markup_Medio);;
  say (ChartSaved output_markup);;
  series ← call (ts_summary df);
  match series with
  | Some ts =>
      let output_ts := Py.path_join report_dir "tpv_ao_longo_do_tempo.html" in
      write disk output_ts
        (line_chart "Evolução do TPV ao longo do tempo" "Data" "TPV Total"
           ts (fun r => Some (Monthly.Tpv_Total r)));;
      say (TimeChartSaved output_ts);;
      let output_markup_ts :=
        Py.path_join report_dir "markup_ao_longo_do_tempo.html" in
      write disk output_markup_ts
        (line_chart "Evolução do markup médio ao longo do tempo" "Data"
           "Markup médio" ts Monthly.Markup_Medio);;
      say (TimeChartSaved output_markup_ts)
  | None => mret tt
  end;;
  say Finished.

End Main.

(** The files a script wrote, in order. *)
Definition written {A} (s : Script A) : list string :=
  omap (fun e => match e with WriteHtml path _ => Some path | _ => None end)
    (effects s).

(** A disk that accepts everything. *)
Definition willing_disk : Disk := MkDisk (fun _ => None) (fun _ _ => None).

(** * Properties *)

(** ** Strings *)

Example title_upper : Py.title (Py.strip "  CLIENTE ") = "Cliente".
Proof. reflexivity. Qed.
Example title_lower : Py.title (Py.strip "tpv") = "Tpv".
Proof. reflexivity. Qed.
Example title_words : Py.title "markup_medio x1y" = "Markup_Medio X1Y".
Proof. reflexivity. Qed.
Example strip_inner : Py.strip (" a b" ++ String "009" "") = "a b".
Proof. reflexivity. Qed.
Example splitext_plain : Py.splitext_ext "Vendas.2024.CSV" = ".CSV".
Proof. reflexivity. Qed.
Example splitext_hidden : Py.splitext_ext ".csv" = "".
Proof. reflexivity. Qed.
Example splitext_dots : Py.splitext_ext "..a.xls" = ".xls".
Proof. reflexivity. Qed.
Example splitext_none : Py.splitext_ext "notes" = "".
Proof. reflexivity. Qed.
Example join_plain : Py.path_join "data" "a.csv" = "data/a.csv".
Proof. reflexivity. Qed.
Example join_slash : Py.path_join "data/" "a.csv" = "data/a.csv".
Proof. reflexivity. Qed.

Lemma toupper_cased c :
  Py.islower c = true ->
  Py.islower (Py.toupper c) = false /\ Py.isupper (Py.toupper c) = true.
Proof.
  destruct c as [[] [] [] [] [] [] [] []]; vm_compute; intros; try discriminate; auto.
Qed.

Lemma tolower_cased c :
  Py.islower c = false -> Py.isupper c = true ->
  Py.islower (Py.tolower c) = true.
Proof.
  destruct c as [[] [] [] [] [] [] [] []]; vm_compute; intros; try discriminate; auto.
Qed.

(** Title-casing a title-cased string changes nothing, so the second
    [c.title()] of the required-columns check reads the renamed labels. *)
Lemma title_from_idem s : forall prev,
  Py.title_from prev (Py.title_from prev s) = Py.title_from prev s.
Proof.
  induction s as [|c s IH]; intros prev; simpl; [reflexivity|].
  destruct (Py.islower c) eqn:Hl.
  - destruct prev; simpl.
    + rewrite Hl, IH. reflexivity.
    + destruct (toupper_cased c Hl) as [-> ->]. rewrite IH. reflexivity.
  - destruct (Py.isupper c) eqn:Hu.
    + destruct prev; simpl.
      * rewrite (tolower_cased c Hl Hu), IH. reflexivity.
      * rewrite Hl, Hu, IH. reflexivity.
    + simpl. rewrite Hl, Hu, IH. reflexivity.
Qed.

Lemma title_idem s : Py.title (Py.title s) = Py.title s.
Proof. apply title_from_idem. Qed.

(** No title-cased string has a capital inside a word. *)
Lemma AnoMes_not_title s : Py.title s <> "AnoMes".
Proof.
  intros H. pose proof (title_idem s) as Hi. rewrite H in Hi. discriminate.
Qed.

(** ** The order of file names *)

Lemma ascii_compare_eq a b : Ascii.compare a b = Eq -> a = b.
Proof.
  unfold Ascii.compare. intros H%N.compare_eq.
  rewrite <- (ascii_N_embedding a), <- (ascii_N_embedding b). congruence.
Qed.

Lemma string_compare_refl s : String.compare s s = Eq.
Proof.
  induction s as [|c s IH]; simpl; [reflexivity|].
  unfold Ascii.compare. rewrite N.compare_refl. exact IH.
Qed.

Lemma string_compare_trans s : forall t u c,
  String.compare s t = c -> String.compare t u = c -> String.compare s u = c.
Proof.
  induction s as [|a s IH]; intros [|b t] [|d u] c H1 H2; simpl in *;
    try congruence.
  unfold Ascii.compare in *.
  destruct (N.compare_spec (N_of_ascii a) (N_of_ascii b)) as [E1|L1|G1];
    destruct (N.compare_spec (N_of_ascii b) (N_of_ascii d)) as [E2|L2|G2];
    try congruence.
  - rewrite E1, E2, N.compare_refl. eapply IH; eauto.
  - rewrite E1. apply N.compare_lt_iff in L2. rewrite L2. congruence.
  - rewrite E1. apply N.compare_gt_iff in G2. rewrite G2. congruence.
  - rewrite <- E2. apply N.compare_lt_iff in L1. rewrite L1. congruence.
  - assert (N_of_ascii a < N_of_ascii d)%N as L by lia.
    apply N.compare_lt_iff in L. rewrite L. congruence.
  - rewrite <- E2. apply N.compare_gt_iff in G1. rewrite G1. congruence.
  - assert (N_of_ascii d < N_of_ascii a)%N as L by lia.
    apply N.compare_gt_iff in L. rewrite L. congruence.
Qed.

#[global] Instance string_le_refl : Reflexive string_le.
Proof. intros s. unfold string_le, String.leb. rewrite string_compare_refl. reflexivity. Qed.

#[global] Instance string_le_total : Total string_le.
Proof. intros s t. apply String.leb_total. Qed.

#[global] Instance string_le_antisym : AntiSymm eq string_le.
Proof. intros s t. apply String.leb_antisym. Qed.

#[global] Instance string_le_trans : Transitive string_le.
Proof.
  intros s t u. unfold string_le, String.leb.
  destruct (String.compare s t) eqn:E1; try discriminate;
    destruct (String.compare t u) eqn:E2; try discriminate; intros _ _.
  - rewrite (string_compare_trans _ _ _ _ E1 E2). reflexivity.
  - apply String.compare_eq_iff in E1. subst. rewrite E2. reflexivity.
  - apply String.compare_eq_iff in E2. subst. rewrite E1. reflexivity.
  - rewrite (string_compare_trans _ _ _ _ E1 E2). reflexivity.
Qed.

(** [sorted] returns the names in non-decreasing order, each as often as
    it was listed. *)
Lemma sorted_StronglySorted names : StronglySorted string_le (sorted names).
Proof. apply StronglySorted_merge_sort; apply _. Qed.

Lemma sorted_Permutation names : sorted names ≡ₚ names.
Proof. apply merge_sort_Permutation. Qed.

(** ** The order of group keys *)

#[global] Instance ts_le_refl : Reflexive ts_le.
Proof. intros a. unfold ts_le. lia. Qed.

#[global] Instance ts_le_trans : Transitive ts_le.
Proof. intros a b c. unfold ts_le. lia. Qed.

#[global] Instance ts_le_total : Total ts_le.
Proof. intros a b. unfold ts_le. lia. Qed.

#[global] Instance ts_le_antisym : AntiSymm eq ts_le.
Proof.
  intros [y1 m1 d1 n1] [y2 m2 d2 n2]. unfold ts_le. simpl. intros H1 H2.
  f_equal; lia.
Qed.

#[global] Instance cell_le_refl : Reflexive cell_le.
Proof.
  intros [s|x|t|]; simpl; done.
Qed.

#[global] Instance cell_le_trans : Transitive cell_le.
Proof.
  intros [s1|x1|t1|] [s2|x2|t2|] [s3|x3|t3|]; simpl; try done.
  - apply string_le_trans.
  - apply Qcle_trans.
  - apply ts_le_trans.
Qed.

#[global] Instance cell_le_total : Total cell_le.
Proof.
  intros [s1|x1|t1|] [s2|x2|t2|]; simpl; auto.
  - apply string_le_total.
  - destruct (Qclt_le_dec x1 x2) as [H|H]; [left; apply Qclt_le_weak, H | right; exact H].
  - apply ts_le_total.
Qed.

#[global] Instance cell_le_antisym : AntiSymm eq cell_le.
Proof.
  intros [s1|x1|t1|] [s2|x2|t2|]; simpl; try done.
  - intros H1 H2. f_equal. by apply string_le_antisym.
  - intros H1 H2. f_equal. by apply Qcle_antisym.
  - intros H1 H2. f_equal. by apply ts_le_antisym.
Qed.

(** ** Runs *)

Lemma run_eta {A} (m : Run A) : MkRun (outcome m) (printed m) = m.
Proof. destruct m; reflexivity. Qed.

Lemma bind_mret {A B} (a : A) (k : A -> Run B) : mret a ≫= k = k a.
Proof. unfold mbind, Run_bind, mret, Run_ret. simpl. apply run_eta. Qed.

Lemma bind_raise {A B} (e : exn) (k : A -> Run B) : raise e ≫= k = raise e.
Proof. reflexivity. Qed.

Lemma bind_returns {A B} (m : Run A) (k : A -> Run B) b :
  returns (m ≫= k) b <-> exists a, returns m a /\ returns (k a) b.
Proof.
  unfold returns, mbind, Run_bind. destruct (outcome m) as [e|a]; simpl.
  - split; [discriminate | intros (a & Ha & _); discriminate].
  - split; [eauto | intros (a' & [= <-] & H); exact H].
Qed.

Lemma bind_printed {A B} (m : Run A) (k : A -> Run B) a :
  returns m a -> printed (m ≫= k) = (printed m ++ printed (k a))%list.
Proof. unfold returns, mbind, Run_bind. intros ->. reflexivity. Qed.

Lemma bind_raises_left {A B} (m : Run A) (k : A -> Run B) e :
  raises m e -> m ≫= k = MkRun (inl e) (printed m).
Proof. unfold raises, mbind, Run_bind. intros ->. reflexivity. Qed.

Lemma returns_mret {A} (a : A) : returns (mret a) a.
Proof. reflexivity. Qed.

Lemma returns_mret_inv {A} (a b : A) : returns (mret a) b -> b = a.
Proof. unfold returns. simpl. congruence. Qed.

Lemma returns_raise {A} e (a : A) : ~ returns (raise e) a.
Proof. unfold returns. simpl. discriminate. Qed.

Lemma returns_inj {A} (m : Run A) a b : returns m a -> returns m b -> a = b.
Proof. unfold returns. congruence. Qed.

Lemma returns_not_raises {A} (m : Run A) a e : returns m a -> ~ raises m e.
Proof. unfold returns, raises. congruence. Qed.

(** ** Columns *)

(** The columns of a label, in a frame whose columns were rewritten
    without touching the labels. *)
Lemma columns_named_map (f : string * list cell -> string * list cell)
    key n cs :
  (forall c, fst (f c) = fst c) ->
  columns_named key (MkFrame n (map f cs))
  = map (fun c => snd (f c)) (filter (fun c => fst c = key) cs).
Proof.
  intros Hf. unfold columns_named. simpl.
  induction cs as [|c cs IH]; simpl; [reflexivity|].
  rewrite !filter_cons, Hf. destruct (decide (fst c = key)); simpl; congruence.
Qed.

Lemma columns_named_elem key df values :
  values ∈ columns_named key df <-> (key, values) ∈ cols df.
Proof.
  unfold columns_named. rewrite list_elem_of_fmap. split.
  - intros ([l v] & -> & [? ?]%list_elem_of_filter). simpl in *. by subst.
  - intros H. exists (key, values). split; [done|].
    apply list_elem_of_filter. done.
Qed.

Lemma columns_named_nil key df :
  columns_named key df = [] <-> key ∉ labels df.
Proof.
  unfold columns_named, labels. rewrite list_elem_of_fmap. split.
  - intros H ([l v] & -> & Hin). simpl in *.
    assert (v ∈ columns_named l (MkFrame (nrows df) (cols df))) as Hv
      by (apply columns_named_elem; done).
    unfold columns_named in Hv. simpl in Hv. rewrite H in Hv. by inversion Hv.
  - intros H. destruct (filter _ _) as [|[l v] r] eqn:E; [done|]. exfalso.
    apply H. exists (l, v). 
    assert ((l, v) ∈ filter (λ c, c.1 = key) (cols df)) as Hin
      by (rewrite E; left).
    apply list_elem_of_filter in Hin as [Hl Hin]. simpl in *. by subst.
Qed.

Lemma columns_named_unique key df :
  NoDup (labels df) -> key ∈ labels df ->
  exists values, columns_named key df = [values].
Proof.
  unfold columns_named, labels. destruct df as [n cs]. simpl.
  induction cs as [|[l v] cs IH]; simpl; intros Hnd Hin; [by inversion Hin|].
  apply NoDup_cons in Hnd as [Hl Hnd]. rewrite filter_cons. simpl.
  destruct (decide (l = key)) as [->|Hne].
  - exists v. simpl. f_equal.
    change (columns_named key (MkFrame n cs) = []).
    apply columns_named_nil. exact Hl.
  - apply IH; [exact Hnd|]. apply elem_of_cons in Hin as [?|?]; [congruence|done].
Qed.

Lemma getitem_series df key values :
  columns_named key df = [values] -> getitem df key = mret (Series values).
Proof. unfold getitem. intros ->. reflexivity. Qed.

Lemma getitem_returns_series df key values :
  returns (getitem df key) (Series values) <-> columns_named key df = [values].
Proof.
  unfold getitem, returns.
  destruct (columns_named key df) as [|v [|v' l]]; simpl; split; congruence.
Qed.

Lemma getitem_printed df key : printed (getitem df key) = [].
Proof.
  unfold getitem. destruct (columns_named key df) as [|v [|v' l]]; reflexivity.
Qed.

(** ** Coercion of the columns of one file *)

Section CoerceColumns.
Context (P : Coercers).

Lemma labels_apply_col key g df : labels (apply_col key g df) = labels df.
Proof.
  unfold labels, apply_col. simpl. rewrite <- list_fmap_compose.
  apply list_fmap_ext. intros i c _. simpl. by destruct (decide _).
Qed.

Lemma columns_named_apply_col_ne key key' g df :
  key <> key' ->
  columns_named key (apply_col key' g df) = columns_named key df.
Proof.
  intros Hne. unfold apply_col. rewrite columns_named_map.
  - unfold columns_named. apply list_fmap_ext.
    intros i c [Hc _]%list_elem_of_lookup_2%list_elem_of_filter. simpl.
    destruct (decide (fst c = key')); [congruence | reflexivity].
  - intros c. by destruct (decide _).
Qed.

Lemma apply_col_absent key g df :
  key ∉ labels df -> apply_col key g df = df.
Proof.
  intros H. destruct df as [n cs]. unfold apply_col. simpl. f_equal.
  rewrite <- (list_fmap_id cs) at 2. apply list_fmap_ext.
  intros i c Hc%list_elem_of_lookup_2. simpl. destruct (decide _) as [E|]; [|done].
  exfalso. apply H. unfold labels. simpl. apply list_elem_of_fmap.
  exists c. done.
Qed.

(** Assigning the converted values of a single column is the cell-wise
    conversion of that column. *)
Lemma setitem_single key g df values :
  columns_named key df = [values] ->
  setitem df key (map g values) = apply_col key g df.
Proof.
  intros H. unfold setitem, apply_col.
  assert (key ∈ labels df) as Hin.
  { destruct (decide (key ∈ labels df)) as [|Hn]; [done|].
    apply columns_named_nil in Hn. congruence. }
  rewrite decide_True by exact Hin. f_equal.
  apply list_fmap_ext. intros i [l v] Hc%list_elem_of_lookup_2. simpl.
  destruct (decide (l = key)) as [->|]; [|done].
  apply columns_named_elem in Hc. rewrite H in Hc.
  apply list_elem_of_singleton in Hc. by subst.
Qed.

Lemma coerced_apply_col df :
  apply_col "Markup" (to_numeric_scalar P)
    (apply_col "Tpv" (to_numeric_scalar P)
       (apply_col "Data" (to_datetime_scalar P) df))
  = coerced P df.
Proof.
  unfold apply_col, coerced. simpl. f_equal.
  rewrite <- !list_fmap_compose. apply list_fmap_ext. intros i [l v] _. simpl.
  destruct (decide (l = "Data")) as [->|]; simpl; [reflexivity|].
  destruct (decide (l = "Tpv")) as [->|]; simpl; [reflexivity|].
  destruct (decide (l = "Markup")) as [->|]; simpl.
  - reflexivity.
  - rewrite decide_False
      by (rewrite !elem_of_cons, elem_of_nil; intuition congruence).
    reflexivity.
Qed.

Lemma to_datetime_series values :
  to_datetime P (Series values) = mret (map (to_datetime_scalar P) values).
Proof. reflexivity. Qed.

Lemma to_numeric_series values :
  to_numeric P (Series values) = mret (map (to_numeric_scalar P) values).
Proof. reflexivity. Qed.

(** When the labels are single, the coercion step returns, prints nothing,
    and its result is the cell-wise coercion. *)
Lemma coerce_columns_single df :
  titled df = labels df -> single_columns df ->
  coerce_columns P df = mret (coerced P df).
Proof.
  intros Ht ([vt Hvt] & [vm Hvm] & Hd). unfold coerce_columns. rewrite Ht.
  assert ((if bool_decide ("Data" ∈ labels df)
           then arg ← getitem df "Data";
                values ← to_datetime P arg;
                mret (setitem df "Data" values)
           else mret df)
          = mret (apply_col "Data" (to_datetime_scalar P) df)) as ->.
  { case_bool_decide as Hin.
    - destruct (Hd Hin) as [vd Hvd].
      rewrite (getitem_series _ _ _ Hvd), bind_mret, to_datetime_series.
      rewrite bind_mret, (setitem_single _ _ _ _ Hvd). reflexivity.
    - rewrite apply_col_absent by exact Hin. reflexivity. }
  rewrite bind_mret.
  set (d1 := apply_col "Data" (to_datetime_scalar P) df).
  assert (columns_named "Tpv" d1 = [vt]) as H1
    by (unfold d1; rewrite columns_named_apply_col_ne; done).
  rewrite (getitem_series _ _ _ H1), bind_mret, to_numeric_series, bind_mret.
  rewrite (setitem_single _ _ _ _ H1).
  set (d2 := apply_col "Tpv" (to_numeric_scalar P) d1).
  assert (columns_named "Markup" d2 = [vm]) as H2
    by (unfold d2, d1; rewrite !columns_named_apply_col_ne; done).
  rewrite (getitem_series _ _ _ H2), bind_mret, to_numeric_series, bind_mret.
  rewrite (setitem_single _ _ _ _ H2). unfold d2, d1.
  rewrite coerced_apply_col. reflexivity.
Qed.

Lemma to_datetime_returns arg values :
  returns (to_datetime P arg) values ->
  exists v, arg = Series v /\ values = map (to_datetime_scalar P) v.
Proof.
  destruct arg as [v|]; intros H.
  - apply returns_mret_inv in H. eauto.
  - unfold returns in H. simpl in H. discriminate.
Qed.

Lemma to_numeric_returns arg values :
  returns (to_numeric P arg) values ->
  exists v, arg = Series v /\ values = map (to_numeric_scalar P) v.
Proof.
  destruct arg as [v|]; intros H.
  - apply returns_mret_inv in H. eauto.
  - unfold returns in H. simpl in H. discriminate.
Qed.

(** Conversely the coercion step returns only when the labels are single:
    a label naming several columns makes [to_numeric] or [to_datetime]
    raise. *)
Lemma coerce_columns_returns df df' :
  titled df = labels df -> returns (coerce_columns P df) df' ->
  single_columns df /\ df' = coerced P df.
Proof.
  intros Ht Hr. cut (single_columns df).
  { intros Hs. split; [exact Hs|].
    rewrite (coerce_columns_single df Ht Hs) in Hr.
    by apply returns_mret_inv in Hr. }
  unfold coerce_columns in Hr. rewrite Ht in Hr.
  apply bind_returns in Hr as (d1 & Hd1 & Hr).
  assert (("Data" ∈ labels df -> exists v, columns_named "Data" df = [v])
          /\ d1 = apply_col "Data" (to_datetime_scalar P) df) as [Hd ->].
  { case_bool_decide as Hin.
    - apply bind_returns in Hd1 as (arg & Harg & Hd1).
      apply bind_returns in Hd1 as (values & Hv & Hd1).
      apply to_datetime_returns in Hv as (v & -> & ->).
      apply getitem_returns_series in Harg.
      apply returns_mret_inv in Hd1 as ->.
      split; [eauto | by apply setitem_single].
    - apply returns_mret_inv in Hd1 as ->.
      split; [done | by rewrite apply_col_absent]. }
  apply bind_returns in Hr as (arg & Harg & Hr).
  apply bind_returns in Hr as (values & Hv & Hr).
  apply to_numeric_returns in Hv as (vt & -> & ->).
  apply getitem_returns_series in Harg.
  rewrite (setitem_single _ _ _ _ Harg) in Hr.
  rewrite columns_named_apply_col_ne in Harg by done.
  apply bind_returns in Hr as (arg & Harg' & Hr).
  apply bind_returns in Hr as (values & Hv & Hr).
  apply to_numeric_returns in Hv as (vm & -> & ->).
  apply getitem_returns_series in Harg'.
  rewrite !columns_named_apply_col_ne in Harg' by done.
  repeat split; eauto.
Qed.

Lemma coerce_columns_printed df : printed (coerce_columns P df) = [].
Proof.
  unfold coerce_columns, mbind, Run_bind.
  repeat (simpl; rewrite ?getitem_printed;
          match goal with
          | |- context [outcome (getitem ?d ?k)] =>
              let E := fresh in
              destruct (outcome (getitem d k)) as [?|[?|?]] eqn:E
          | |- context [bool_decide ?p] => destruct (bool_decide p)
          | _ => idtac
          end); reflexivity.
Qed.

End CoerceColumns.

(** ** One iteration of the loader *)

Section LoadFile.
Context (w : World) (P : Coercers).
Context (data_dir : string) (encoding : option string).

Local Abbreviation load_file' := (load_file w P data_dir encoding).
Local Abbreviation parsed' := (parsed w data_dir encoding).
Local Abbreviation contribution' := (contribution w P data_dir encoding).
Local Abbreviation notices' := (notices w P data_dir encoding).

Local Abbreviation loadable := (loadable w data_dir encoding).

Lemma titled_normalized raw : titled (normalized raw) = labels (normalized raw).
Proof.
  unfold titled, normalized, rename, labels. simpl.
  rewrite <- !list_fmap_compose. apply list_fmap_ext. intros i c _. simpl.
  apply title_idem.
Qed.

(** The three ways through the loop body. *)
Lemma load_file_unparsed acc filename :
  parsed' filename = None ->
  load_file' acc filename = MkRun (inr acc) (notices' filename)
  /\ (notices' filename = []
      \/ notices' filename = [Unsupported filename]
      \/ exists exc, notices' filename = [ReadFailure filename exc]).
Proof.
  unfold parsed, discovered, notices, load_file.
  destruct (Py.startswith filename "~"); simpl; [auto|].
  destruct (isfile w _); simpl; [|auto].
  destruct (reader_for _) as [r|]; [|auto].
  destruct (read w r _ encoding) as [exc|raw]; [eauto | discriminate].
Qed.

Lemma load_file_missing_columns acc filename raw :
  parsed' filename = Some raw -> has_required raw = false ->
  load_file' acc filename = MkRun (inr acc) [MissingColumns filename].
Proof.
  unfold parsed, discovered, load_file, has_required.
  destruct (Py.startswith filename "~"); simpl; [discriminate|].
  destruct (isfile w _); simpl; [|discriminate].
  destruct (reader_for _) as [r|]; [|discriminate].
  destruct (read w r _ encoding) as [exc|raw']; [discriminate|].
  intros [= ->] Hreq. fold (normalized raw).
  rewrite titled_normalized, Hreq. reflexivity.
Qed.

Lemma load_file_required acc filename raw :
  parsed' filename = Some raw -> has_required raw = true ->
  load_file' acc filename
  = (df ← coerce_columns P (normalized raw); mret (acc ++ [df])%list).
Proof.
  unfold parsed, discovered, load_file, has_required.
  destruct (Py.startswith filename "~"); simpl; [discriminate|].
  destruct (isfile w _); simpl; [|discriminate].
  destruct (reader_for _) as [r|]; [|discriminate].
  destruct (read w r _ encoding) as [exc|raw']; [discriminate|].
  intros [= ->] Hreq. fold (normalized raw).
  rewrite titled_normalized, Hreq. reflexivity.
Qed.

Lemma notices_missing_columns filename raw :
  parsed' filename = Some raw -> has_required raw = false ->
  notices' filename = [MissingColumns filename].
Proof.
  intros Hp Hr. unfold notices.
  rewrite (load_file_missing_columns _ _ _ Hp Hr). reflexivity.
Qed.

(** Every notice printed while a file is processed names that file. *)
Lemma notices_file filename n :
  n ∈ notices' filename -> notice_file n = filename.
Proof.
  destruct (parsed' filename) as [raw|] eqn:Hp.
  - destruct (has_required raw) eqn:Hr.
    + unfold notices. rewrite (load_file_required _ _ _ Hp Hr).
      unfold mbind, Run_bind.
      destruct (outcome (coerce_columns P (normalized raw))); simpl;
        rewrite coerce_columns_printed; simpl; by intros ?%elem_of_nil.
    + rewrite (notices_missing_columns _ _ Hp Hr).
      by intros ->%list_elem_of_singleton.
  - destruct (load_file_unparsed [] _ Hp) as [_ [->|[->|[exc ->]]]].
    + by intros ?%elem_of_nil.
    + by intros ->%list_elem_of_singleton.
    + by intros ->%list_elem_of_singleton.
Qed.

(** A loadable file leaves the accumulator with its contribution added,
    whatever the readers did. *)
Lemma load_file_loadable acc filename :
  loadable filename ->
  load_file' acc filename
  = MkRun (inr (acc ++ option_list (contribution' filename))%list)
      (notices' filename).
Proof.
  intros Hl. unfold contribution.
  destruct (parsed' filename) as [raw|] eqn:Hp.
  - destruct (has_required raw) eqn:Hr; simpl.
    + pose proof (coerce_columns_single P _ (titled_normalized raw)
                    (Hl raw Hp Hr)) as Hc.
      unfold notices.
      rewrite !(load_file_required _ _ _ Hp Hr), Hc, !bind_mret.
      reflexivity.
    + rewrite (notices_missing_columns _ _ Hp Hr), app_nil_r.
      by apply (load_file_missing_columns _ _ raw).
  - simpl. rewrite app_nil_r. by apply load_file_unparsed.
Qed.

(** An iteration that returns was on a loadable file. *)
Lemma load_file_returns acc filename frames :
  returns (load_file' acc filename) frames -> loadable filename.
Proof.
  intros Hr raw Hp Hreq.
  rewrite (load_file_required _ _ _ Hp Hreq) in Hr.
  apply bind_returns in Hr as (df & Hdf & _).
  by apply coerce_columns_returns in Hdf as [? _]; [|apply titled_normalized].
Qed.

(** The loop over a list of loadable files. *)
Lemma for_each_loadable names : forall acc,
  Forall loadable names ->
  for_each load_file' acc names
  = MkRun (inr (acc ++ omap contribution' names)%list)
      (flat_map notices' names).
Proof.
  induction names as [|f names IH]; intros acc Hall; simpl.
  - rewrite app_nil_r. reflexivity.
  - apply Forall_cons in Hall as [Hf Hall].
    rewrite (load_file_loadable acc f Hf).
    unfold mbind, Run_bind. simpl. rewrite (IH _ Hall). simpl.
    f_equal. f_equal. rewrite <- app_assoc. f_equal.
    by destruct (contribution' f).
Qed.

Lemma for_each_returns names : forall acc frames,
  returns (for_each load_file' acc names) frames -> Forall loadable names.
Proof.
  induction names as [|f names IH]; intros acc frames Hr; simpl in *.
  - constructor.
  - apply bind_returns in Hr as (acc' & Hf & Hr).
    constructor; [by eapply load_file_returns | by eapply IH].
Qed.

End LoadFile.

(** ** Concatenation *)

Lemma elem_of_unique_from l : forall seen x,
  x ∈ unique_from seen l <-> x ∈ l /\ x ∉ seen.
Proof.
  induction l as [|y l IH]; intros seen x; simpl.
  - rewrite elem_of_nil. tauto.
  - destruct (decide (y ∈ seen)) as [Hy|Hy].
    + rewrite IH, elem_of_cons. split; [tauto|].
      intros [[->|?] ?]; tauto.
    + rewrite !elem_of_cons, IH, elem_of_cons. split.
      * intros [->|[? ?]]; tauto.
      * intros [[->|?] ?]; [tauto|].
        destruct (decide (x = y)); tauto.
Qed.

Lemma NoDup_unique_from l : forall seen, NoDup (unique_from seen l).
Proof.
  induction l as [|y l IH]; intros seen; simpl; [constructor|].
  destruct (decide (y ∈ seen)); [apply IH|].
  constructor; [|apply IH].
  rewrite elem_of_unique_from, elem_of_cons. tauto.
Qed.

Lemma total_rows_app xs ys :
  total_rows (xs ++ ys) = total_rows xs + total_rows ys.
Proof. induction xs as [|x xs IH]; simpl; [reflexivity | rewrite IH; lia]. Qed.

(** The two ways [concat] returns. *)
Lemma concat_returns frames df :
  returns (concat frames) df ->
  exists first rest, frames = first :: rest /\
    ((Forall (fun fr => labels fr = labels first) frames
      /\ df = foldr stack (no_rows first) frames)
     \/ (Forall (fun fr => NoDup (labels fr)) frames
         /\ df = reindexed (unique_from [] (flat_map labels frames)) frames)).
Proof.
  destruct frames as [|first rest]; [by intros ?%returns_raise|].
  intros H. exists first, rest. split; [reflexivity|].
  unfold concat in H.
  destruct (forallb _ (first :: rest)) eqn:Hall.
  - left. apply returns_mret_inv in H as ->. split; [|reflexivity].
    apply Forall_forall. intros fr Hfr.
    rewrite forallb_forall in Hall.
    apply list_elem_of_In, Hall, bool_decide_eq_true in Hfr. exact Hfr.
  - destruct (existsb _ (first :: rest)) eqn:Hex;
      [by apply returns_raise in H|].
    right. apply returns_mret_inv in H as ->. split; [|reflexivity].
    apply Forall_forall. intros fr Hfr.
    destruct (decide (NoDup (labels fr))) as [|Hn]; [done|].
    assert (existsb (λ df, has_duplicates (labels df)) (first :: rest) = true)
      as Hcontra; [|congruence].
    apply existsb_exists. exists fr. split; [by apply list_elem_of_In|].
    unfold has_duplicates. by rewrite bool_decide_eq_false_2.
Qed.

(** [concat] raises only for want of frames or over a repeated label. *)
Lemma concat_NoDup frames :
  frames <> [] -> Forall (fun fr => NoDup (labels fr)) frames ->
  exists df, returns (concat frames) df.
Proof.
  destruct frames as [|first rest]; [done|]. intros _ Hnd.
  unfold concat. destruct (forallb _ (first :: rest)); [by eexists|].
  destruct (existsb _ (first :: rest)) eqn:Hex; [|by eexists].
  apply existsb_exists in Hex as (fr & Hfr & Hd).
  rewrite Forall_forall in Hnd. apply list_elem_of_In, Hnd in Hfr.
  unfold has_duplicates in Hd. by rewrite bool_decide_eq_true_2 in Hd.
Qed.

(** *** Frames stacked by position *)

Lemma labels_stack fr below :
  labels fr = labels below -> labels (stack fr below) = labels fr.
Proof.
  unfold labels, stack. simpl. generalize (cols below). 
  induction (cols fr) as [|c cs IH]; intros [|c' cs']; simpl; try done.
  intros [= _ H]. f_equal. by apply IH.
Qed.

Lemma columns_named_stack key fr below :
  labels fr = labels below ->
  columns_named key (stack fr below)
  = zip_with app (columns_named key fr) (columns_named key below).
Proof.
  unfold labels, columns_named, stack. simpl. generalize (cols below).
  induction (cols fr) as [|c cs IH]; intros [|c' cs']; simpl; try done.
  intros [= Hc H]. rewrite !filter_cons. simpl. rewrite <- Hc.
  destruct (decide (fst c = key)); simpl; rewrite IH; done.
Qed.

Lemma nrows_foldr_stack base frames :
  nrows (foldr stack base frames) = total_rows frames + nrows base.
Proof. induction frames as [|fr frames IH]; simpl; [done | rewrite IH; lia]. Qed.

Lemma labels_foldr_stack base frames :
  Forall (fun fr => labels fr = labels base) frames ->
  labels (foldr stack base frames) = labels base.
Proof.
  induction 1 as [|fr frames Hfr _ IH]; simpl; [done|].
  rewrite labels_stack; congruence.
Qed.

(** A label that names one column in every frame names one in the stack,
    and a property of all their cells holds of all its cells. *)
Lemma foldr_stack_single key (Q : cell -> Prop) base frames :
  Forall (fun fr => labels fr = labels base) frames ->
  (exists v, columns_named key base = [v] /\ Forall Q v) ->
  Forall (fun fr => exists v, columns_named key fr = [v] /\ Forall Q v)
    frames ->
  exists v, columns_named key (foldr stack base frames) = [v] /\ Forall Q v.
Proof.
  intros Hl Hb. induction Hl as [|fr frames Hfr Hl IH]; simpl; [done|].
  intros [(v & Hv & HQ) Hall]%Forall_cons.
  destruct (IH Hall) as (v' & Hv' & HQ').
  exists (v ++ v')%list. split; [|by apply Forall_app].
  rewrite columns_named_stack, Hv, Hv'; [done|].
  rewrite labels_foldr_stack; done.
Qed.

Lemma labels_no_rows df : labels (no_rows df) = labels df.
Proof.
  unfold labels, no_rows. simpl. rewrite <- list_fmap_compose.
  by apply list_fmap_ext.
Qed.

Lemma columns_named_no_rows key df :
  columns_named key (no_rows df) = map (fun _ => []) (columns_named key df).
Proof.
  unfold no_rows. rewrite columns_named_map by done.
  unfold columns_named. by rewrite <- list_fmap_compose.
Qed.

(** *** Frames reindexed on the union of their labels *)

Lemma labels_reindexed keys frames : labels (reindexed keys frames) = keys.
Proof.
  unfold labels, reindexed. simpl. rewrite <- list_fmap_compose.
  rewrite <- (list_fmap_id keys) at 2. by apply list_fmap_ext.
Qed.

Lemma columns_named_reindexed key keys frames :
  NoDup keys -> key ∈ keys ->
  columns_named key (reindexed keys frames)
  = [flat_map (column_or_nan key) frames].
Proof.
  unfold columns_named, reindexed. simpl.
  induction keys as [|k keys IH]; intros Hnd Hin; [by inversion Hin|].
  apply NoDup_cons in Hnd as [Hk Hnd]. simpl. rewrite filter_cons. simpl.
  destruct (decide (k = key)) as [->|Hne].
  - simpl. f_equal.
    change (columns_named key (reindexed keys frames) = []).
    apply columns_named_nil. by rewrite labels_reindexed.
  - apply IH; [done|]. apply elem_of_cons in Hin as [?|?]; [congruence|done].
Qed.

Lemma Forall_flat_map_column key (Q : cell -> Prop) frames :
  Forall (fun fr => exists v, columns_named key fr = [v] /\ Forall Q v)
    frames ->
  Forall Q (flat_map (column_or_nan key) frames).
Proof.
  induction 1 as [|fr frames (v & Hv & HQ) _ IH]; simpl; [constructor|].
  apply Forall_app. split; [|exact IH].
  unfold column_or_nan. by rewrite Hv.
Qed.

(** In a frame that [concat] returns, a label that named one column in
    every frame names one column, made of their cells. *)
Lemma concat_single key (Q : cell -> Prop) frames df :
  returns (concat frames) df ->
  Forall (fun fr => exists v, columns_named key fr = [v] /\ Forall Q v)
    frames ->
  exists v, columns_named key df = [v] /\ Forall Q v.
Proof.
  intros (first & rest & -> & [[Hl ->]|[Hnd ->]])%concat_returns Hall.
  - apply foldr_stack_single; [| |done].
    + eapply Forall_impl; [exact Hl|]. intros fr ->.
      by rewrite labels_no_rows.
    + apply Forall_cons in Hall as [(v & Hv & _) _].
      exists []. rewrite columns_named_no_rows, Hv. by split.
  - eexists. split; [|by apply Forall_flat_map_column].
    apply columns_named_reindexed; [apply NoDup_unique_from|].
    apply elem_of_unique_from. split; [|by intros ?%elem_of_nil].
    apply Forall_cons in Hall as [(v & Hv & _) _]. simpl.
    apply elem_of_app. left.
    destruct (decide (key ∈ labels first)) as [|Hn]; [done|].
    apply columns_named_nil in Hn. congruence.
Qed.

Lemma concat_labels frames df fr key :
  returns (concat frames) df -> fr ∈ frames ->
  key ∈ labels fr -> key ∈ labels df.
Proof.
  intros (first & rest & -> & [[Hl ->]|[Hnd ->]])%concat_returns Hfr Hk.
  - rewrite labels_foldr_stack.
    + rewrite Forall_forall in Hl.
      rewrite labels_no_rows, <- (Hl fr Hfr). exact Hk.
    + eapply Forall_impl; [exact Hl|]. intros fr' ->.
      by rewrite labels_no_rows.
  - rewrite labels_reindexed. apply elem_of_unique_from.
    split; [|by intros ?%elem_of_nil].
    apply list_elem_of_In, in_flat_map. exists fr.
    split; by apply list_elem_of_In.
Qed.

(** ** The loader as a whole *)

Section LoadData.
Context (w : World) (P : Coercers).
Context (data_dir : string) (encoding : option string).

Local Abbreviation load_data' := (load_data w P data_dir encoding).
Local Abbreviation load_file' := (load_file w P data_dir encoding).
Local Abbreviation parsed' := (parsed w data_dir encoding).
Local Abbreviation contribution' := (contribution w P data_dir encoding).
Local Abbreviation notices' := (notices w P data_dir encoding).
Local Abbreviation loadable' := (loadable w data_dir encoding).
Local Abbreviation retained' := (retained w P data_dir encoding).

Lemma concat_printed frames : printed (concat frames) = [].
Proof.
  destruct frames as [|first rest]; [reflexivity|]. unfold concat.
  destruct (forallb _ _); [reflexivity|]. by destruct (existsb _ _).
Qed.

Lemma load_data_accessible names :
  listdir w data_dir = Some names ->
  load_data' =
    (all_frames ← for_each load_file' [] (sorted names);
     match all_frames with
     | [] => raise no_valid_file
     | _ => concat all_frames
     end).
Proof. intros H. unfold load_data. rewrite H, bind_mret. reflexivity. Qed.

Lemma load_data_inaccessible :
  listdir w data_dir = None -> load_data' = raise (OSError data_dir).
Proof. intros H. unfold load_data. rewrite H. reflexivity. Qed.

(** When every file is loadable the loop completes, and the loader is the
    concatenation of the contributions. *)
Lemma load_data_loadable names :
  listdir w data_dir = Some names -> Forall loadable' (sorted names) ->
  load_data' =
    MkRun (outcome (match omap contribution' (sorted names) with
                    | [] => raise no_valid_file
                    | frames => concat frames
                    end))
      (flat_map notices' (sorted names)).
Proof.
  intros Hl Hall. rewrite (load_data_accessible _ Hl).
  rewrite (for_each_loadable w P data_dir encoding _ [] Hall).
  unfold mbind, Run_bind. cbn -[concat]. f_equal.
  - by destruct (omap _ _).
  - destruct (omap _ _); [apply app_nil_r|].
    by rewrite concat_printed, app_nil_r.
Qed.

(** A run that returns listed the directory, found every file loadable,
    and returned the concatenation of the contributions. *)
Lemma load_data_returns df :
  returns load_data' df ->
  exists names,
    listdir w data_dir = Some names
    /\ Forall loadable' (sorted names)
    /\ omap contribution' (sorted names) <> []
    /\ returns (concat (omap contribution' (sorted names))) df
    /\ printed load_data' = flat_map notices' (sorted names).
Proof.
  intros Hr. destruct (listdir w data_dir) as [names|] eqn:Hl.
  - exists names. split; [reflexivity|].
    assert (Forall loadable' (sorted names)) as Hall.
    { rewrite (load_data_accessible _ Hl) in Hr.
      apply bind_returns in Hr as (frames & Hf & _).
      by eapply for_each_returns. }
    split; [exact Hall|].
    rewrite (load_data_loadable _ Hl Hall) in Hr |- *.
    unfold returns in Hr. simpl in Hr.
    destruct (omap _ _) as [|fr frames]; [discriminate|]. done.
  - rewrite (load_data_inaccessible Hl) in Hr. by apply returns_raise in Hr.
Qed.

(** What a retained file contributes. *)
Lemma contribution_Some filename fr :
  contribution' filename = Some fr <->
  exists raw, parsed' filename = Some raw /\ has_required raw = true
              /\ fr = coerced P (normalized raw).
Proof.
  unfold contribution. destruct (parsed' filename) as [raw|].
  - destruct (has_required raw) eqn:Hreq; split.
    + intros [= <-]. by exists raw.
    + intros (raw' & [= <-] & _ & ->). done.
    + discriminate.
    + intros (raw' & [= <-] & ? & _). congruence.
  - split; [discriminate | intros (? & ? & _); discriminate].
Qed.

Lemma elem_of_contributions (names : list string) (fr : DataFrame) :
  fr ∈ omap contribution' names <->
  exists filename, filename ∈ names /\ contribution' filename = Some fr.
Proof. apply list_elem_of_omap. Qed.

Lemma labels_coerced df : labels (coerced P df) = labels df.
Proof.
  unfold labels, coerced. simpl. rewrite <- list_fmap_compose.
  apply list_fmap_ext. intros i c _. simpl.
  destruct (decide _); [done|]. by destruct (decide _).
Qed.

Lemma columns_named_coerced_numeric key df v :
  key = "Tpv" \/ key = "Markup" ->
  columns_named key df = [v] ->
  columns_named key (coerced P df) = [map (to_numeric_scalar P) v].
Proof.
  intros Hk Hv. unfold coerced. rewrite columns_named_map.
  - change [map (to_numeric_scalar P) v]
      with (map (map (to_numeric_scalar P)) [v]).
    rewrite <- Hv. unfold columns_named. rewrite <- list_fmap_compose.
    apply list_fmap_ext.
    intros i c [Hc _]%list_elem_of_lookup_2%list_elem_of_filter. simpl.
    rewrite Hc. by destruct Hk as [-> | ->].
  - intros c. destruct (decide _); [done|]. by destruct (decide _).
Qed.

Lemma to_numeric_scalar_total c : numeric_or_missing (to_numeric_scalar P c).
Proof.
  destruct c as [s|q|t|]; simpl; try done.
  - by destruct (float_of_string P s).
  - by destruct (float_of_datetime P t).
Qed.

Lemma to_datetime_scalar_total c :
  datetime_or_missing (to_datetime_scalar P c).
Proof.
  destruct c as [s|q|t|]; simpl; try done.
  - by destruct (datetime_of_string P s).
  - by destruct (datetime_of_number P q).
Qed.

(** The frames the loop accumulates have their required columns, the
    numeric ones single and coerced. *)
Lemma contribution_columns names fr key :
  Forall loadable' names -> fr ∈ omap contribution' names ->
  key = "Tpv" \/ key = "Markup" ->
  "Cliente" ∈ labels fr
  /\ exists v, columns_named key fr = [v] /\ Forall numeric_or_missing v.
Proof.
  intros Hall (f & Hf & (raw & Hp & Hreq & ->)%contribution_Some)
    %elem_of_contributions Hk.
  rewrite Forall_forall in Hall.
  destruct (Hall f Hf raw Hp Hreq) as ([vt Hvt] & [vm Hvm] & _).
  split.
  - rewrite labels_coerced. unfold has_required in Hreq.
    apply bool_decide_eq_true in Hreq. apply Hreq. unfold required_cols.
    rewrite !elem_of_cons. auto.
  - destruct Hk as [-> | ->]; eexists;
      (split; [by apply columns_named_coerced_numeric; [auto|] |]);
      apply Forall_fmap, Forall_forall; intros c _;
      apply to_numeric_scalar_total.
Qed.

End LoadData.

(** ** What the loader can raise *)

Lemma bind_raises {A B} (m : Run A) (k : A -> Run B) e :
  raises (m ≫= k) e <->
  raises m e \/ exists a, returns m a /\ raises (k a) e.
Proof.
  unfold raises, returns, mbind, Run_bind.
  destruct (outcome m) as [e'|a]; simpl.
  - split; [intros [= ->]; by left
           | intros [[= ->]|(a & H & _)]; [reflexivity | discriminate]].
  - split; [eauto | intros [H|(a' & [= <-] & H)]; [discriminate | exact H]].
Qed.

Lemma getitem_raises df key e : raises (getitem df key) e -> column_error e.
Proof.
  unfold getitem, raises.
  destruct (columns_named key df) as [|v [|v' l]]; simpl; intros [= <-]; done.
Qed.

Lemma to_numeric_raises P arg e :
  raises (to_numeric P arg) e -> column_error e.
Proof. destruct arg; unfold raises; simpl; intros [= <-]; done. Qed.

Lemma to_datetime_raises P arg e :
  raises (to_datetime P arg) e -> column_error e.
Proof. destruct arg; unfold raises; simpl; intros [= <-]; done. Qed.

Lemma concat_raises frames e : raises (concat frames) e -> column_error e.
Proof.
  destruct frames as [|first rest]; unfold concat, raises.
  - simpl. by intros [= <-].
  - destruct (forallb _ _); [discriminate|].
    destruct (existsb _ _); [|discriminate]. simpl. by intros [= <-].
Qed.

Lemma coerce_columns_raises P df e :
  raises (coerce_columns P df) e -> column_error e.
Proof.
  unfold coerce_columns.
  repeat (let H := fresh in
          intros [H|(? & _ & H)]%bind_raises;
          [first [ by eapply getitem_raises
                 | by eapply to_numeric_raises
                 | by eapply to_datetime_raises
                 | idtac ]
          | revert H]).
  - destruct (bool_decide _); [|discriminate].
    revert H.
    repeat (let H := fresh in
            intros [H|(? & _ & H)]%bind_raises;
            [first [ by eapply getitem_raises | by eapply to_datetime_raises ]
            | revert H]).
    discriminate.
  - discriminate.
Qed.

Section Raises.
Context (w : World) (P : Coercers).
Context (data_dir : string) (encoding : option string).

Lemma load_file_raises acc filename e :
  raises (load_file w P data_dir encoding acc filename) e -> column_error e.
Proof.
  destruct (parsed w data_dir encoding filename) as [raw|] eqn:Hp.
  - destruct (has_required raw) eqn:Hr.
    + rewrite (load_file_required _ _ _ _ _ _ _ Hp Hr).
      intros [H|(? & _ & H)]%bind_raises; [|discriminate].
      by eapply coerce_columns_raises.
    + rewrite (load_file_missing_columns _ _ _ _ _ _ _ Hp Hr). discriminate.
  - destruct (load_file_unparsed w P _ _ acc _ Hp) as [-> _]. discriminate.
Qed.

Lemma for_each_raises names : forall acc e,
  raises (for_each (load_file w P data_dir encoding) acc names) e ->
  column_error e.
Proof.
  induction names as [|f names IH]; intros acc e; simpl; [discriminate|].
  intros [H|(acc' & _ & H)]%bind_raises.
  - by eapply load_file_raises.
  - by eapply IH.
Qed.

(** The only exceptions of [load_data]: the listing failure, the lack of
    any valid file, and the errors of the column steps. *)
Lemma load_data_raises e :
  raises (load_data w P data_dir encoding) e ->
  e = OSError data_dir \/ e = no_valid_file \/ column_error e.
Proof.
  destruct (listdir w data_dir) as [names|] eqn:Hl.
  - rewrite (load_data_accessible _ _ _ _ _ Hl).
    intros [H|([|fr frames] & _ & H)]%bind_raises.
    + right. right. by eapply for_each_raises.
    + right. left. unfold raises in H. simpl in H. congruence.
    + right. right. by eapply concat_raises.
  - rewrite (load_data_inaccessible _ _ _ _ Hl). unfold raises. simpl.
    intros [= <-]. by left.
Qed.

End Raises.

(** ** Retained files *)

Lemma filter_all {A} (Q : A -> Prop) `{!forall x, Decision (Q x)} l :
  Forall Q l -> filter Q l = l.
Proof.
  induction 1 as [|x l Hx _ IH]; [done|].
  by rewrite filter_cons_True, IH.
Qed.

Lemma filter_none {A} (Q : A -> Prop) `{!forall x, Decision (Q x)} l :
  Forall (fun x => ~ Q x) l -> filter Q l = [].
Proof.
  induction 1 as [|x l Hx _ IH]; [done|].
  by rewrite filter_cons_False, IH.
Qed.

Section Retained.
Context (w : World) (P : Coercers).
Context (data_dir : string) (encoding : option string).

Local Abbreviation contribution' := (contribution w P data_dir encoding).
Local Abbreviation notices' := (notices w P data_dir encoding).

(** The accumulated frames are the contributions of the retained files,
    one for one and in order. *)
Lemma contributions_retained names :
  Forall2 (fun f fr => contribution' f = Some fr)
    (filter (fun f => is_Some (contribution' f)) names)
    (omap contribution' names).
Proof.
  induction names as [|f names IH]; simpl; [constructor|].
  rewrite filter_cons. destruct (contribution' f) as [fr|] eqn:Hc.
  - rewrite decide_True by eauto. by constructor.
  - rewrite decide_False by (by intros [? ?]). exact IH.
Qed.

Lemma contributions_nil names :
  omap contribution' names = [] <->
  filter (fun f => is_Some (contribution' f)) names = [].
Proof.
  pose proof (contributions_retained names) as H.
  apply Forall2_length in H.
  split; intros E; rewrite E in H; simpl in H;
    [by apply length_zero_iff_nil | by apply length_zero_iff_nil].
Qed.

Lemma not_retained_loadable names :
  retained w P data_dir encoding names = [] ->
  Forall (loadable w data_dir encoding) (sorted names).
Proof.
  unfold retained. intros H. apply Forall_forall. intros f Hf raw Hp Hr.
  assert (f ∈ filter (λ f, is_Some (contribution' f)) (sorted names)) as Hin.
  { apply list_elem_of_filter. split; [|exact Hf].
    exists (coerced P (normalized raw)). apply contribution_Some. eauto. }
  rewrite H in Hin. by apply elem_of_nil in Hin.
Qed.

Lemma distinct_headers_loadable filename :
  distinct_headers w data_dir encoding filename ->
  loadable w data_dir encoding filename.
Proof.
  intros Hd raw Hp Hr. specialize (Hd raw Hp).
  unfold has_required in Hr. apply bool_decide_eq_true in Hr.
  repeat split; try intros ?; apply columns_named_unique; try done;
    apply Hr; unfold required_cols; rewrite !elem_of_cons; auto.
Qed.

(** The notices about one file, in a loop that passes it once. *)
Lemma filter_notices filename names :
  NoDup names -> filename ∈ names ->
  filter (fun n => notice_file n = filename) (flat_map notices' names)
  = notices' filename.
Proof.
  assert (forall g, g <> filename ->
            filter (fun n => notice_file n = filename) (notices' g) = [])
    as Hother.
  { intros g Hg. apply filter_none, Forall_forall.
    intros n Hn%notices_file. congruence. }
  assert (forall names, filename ∉ names ->
            filter (fun n => notice_file n = filename)
              (flat_map notices' names) = []) as Hnil.
  { induction names0 as [|g names0 IH]; simpl; [done|].
    intros [Hg Hn]%not_elem_of_cons.
    rewrite filter_app, Hother, IH; done. }
  induction names as [|g names IH]; intros Hnd Hin; [by inversion Hin|].
  apply NoDup_cons in Hnd as [Hg Hnd]. simpl. rewrite filter_app.
  destruct (decide (g = filename)) as [->|Hne].
  - rewrite (Hnil names Hg), app_nil_r.
    apply filter_all, Forall_forall. intros n Hn. by apply notices_file in Hn.
  - rewrite Hother by done. simpl. apply IH; [done|].
    apply elem_of_cons in Hin as [?|?]; [congruence|done].
Qed.

End Retained.

(** ** The loader: required columns, failure, skipped files *)

Lemma concat_nrows frames df :
  returns (concat frames) df -> nrows df = total_rows frames.
Proof.
  intros (first & rest & -> & [[_ ->]|[_ ->]])%concat_returns.
  - rewrite nrows_foldr_stack. simpl. lia.
  - reflexivity.
Qed.

Section LoaderClaims.
Context (w : World) (P : Coercers).
Context (data_dir : string) (encoding : option string).

Local Abbreviation load_data' := (load_data w P data_dir encoding).
Local Abbreviation contribution' := (contribution w P data_dir encoding).
Local Abbreviation retained' := (retained w P data_dir encoding).

(** The "no valid data" error means that no file was retained. *)
Lemma no_valid_file_retained names :
  listdir w data_dir = Some names ->
  raises load_data' no_valid_file <-> retained' names = [].
Proof.
  intros Hl. split.
  - intros Hr. rewrite (load_data_accessible _ _ _ _ _ Hl) in Hr.
    apply bind_raises in Hr as [Hr|(frames & Hf & Hr)].
    + by apply for_each_raises in Hr.
    + pose proof (for_each_returns _ _ _ _ _ _ _ Hf) as Hall.
      rewrite (for_each_loadable _ _ _ _ _ _ Hall) in Hf.
      unfold returns in Hf. simpl in Hf. injection Hf as <-.
      destruct (omap _ _) eqn:E.
      * by apply contributions_nil in E.
      * by apply concat_raises in Hr.
  - intros Hn. pose proof (not_retained_loadable _ _ _ _ _ Hn) as Hall.
    rewrite (load_data_loadable _ _ _ _ _ Hl Hall).
    apply contributions_nil in Hn. rewrite Hn. reflexivity.
Qed.

(** C1, as amended.  Whenever [load_data] returns, the dataset has a
    [Cliente] column and exactly one [Tpv] and one [Markup] column, whose
    every cell is a number or missing.  (Nothing is said of the cells of
    [Cliente]: the loader never looks at them.) *)
Theorem load_data_required_columns df :
  returns load_data' df ->
  "Cliente" ∈ labels df
  /\ (exists tpv,
        columns_named "Tpv" df = [tpv] /\ Forall numeric_or_missing tpv)
  /\ (exists markup,
        columns_named "Markup" df = [markup]
        /\ Forall numeric_or_missing markup).
Proof.
  intros (names & _ & Hall & Hne & Hc & _)%load_data_returns.
  pose proof (fun fr key => contribution_columns w P data_dir encoding
                              (sorted names) fr key Hall) as Hcols.
  repeat split.
  - destruct (omap contribution' (sorted names)) as [|fr frames] eqn:E;
      [done|].
    apply (concat_labels _ _ fr _ Hc); [left|].
    apply (Hcols fr "Tpv"); [left | by left].
  - apply (concat_single _ _ _ _ Hc), Forall_forall.
    intros fr Hfr. by apply (Hcols fr "Tpv"); [|left].
  - apply (concat_single _ _ _ _ Hc), Forall_forall.
    intros fr Hfr. by apply (Hcols fr "Markup"); [|right].
Qed.



End LoaderClaims.

(** C1, as stated, fails: a row whose customer cell is empty is loaded
    like any other. *)
Lemma blank_customer_row_is_loaded :
  exists df,
    returns (load_data Sample.blank_customer_world Sample.coercers "data" None)
      df
    /\ records df !! 1
       = Some [("Cliente", NaN); ("Tpv", Sample.n 7); ("Markup", Sample.n 3)].
Proof. eexists. split; reflexivity. Qed.

Lemma load_data_required_columns_witness :
  exists df,
    returns (load_data Sample.mixed_world Sample.coercers "data" None) df
    /\ "Cliente" ∈ labels df
    /\ (exists tpv,
          columns_named "Tpv" df = [tpv] /\ Forall numeric_or_missing tpv)
    /\ (exists markup,
          columns_named "Markup" df = [markup]
          /\ Forall numeric_or_missing markup).
Proof.
  eexists. split; [reflexivity|].
  apply (load_data_required_columns Sample.mixed_world Sample.coercers
           "data" None).
  reflexivity.
Defined.



(** ** Rows through the concatenation *)

Lemma carries_refl r : carries r r.
Proof. split; auto. Qed.

Lemma Forall2_carries_refl rs : Forall2 carries rs rs.
Proof. induction rs; constructor; [apply carries_refl | done]. Qed.

Lemma seq_from n m : seq n m = map (fun j => n + j) (seq 0 m).
Proof.
  change (map (fun j => n + j) (seq 0 m)) with ((fun j => n + j) <$> seq 0 m).
  by rewrite fmap_add_seq, Nat.add_0_r.
Qed.

Lemma nth_replicate_default {A} (d : A) n : forall i,
  nth i (replicate n d) d = d.
Proof. induction n as [|n IH]; intros [|i]; simpl; auto. Qed.

Lemma records_no_rows df : records (no_rows df) = [].
Proof. reflexivity. Qed.

Lemma row_at_stack (cs cs' : list (string * list cell)) n :
  map fst cs = map fst cs' ->
  Forall (fun c => length (snd c) = n) cs ->
  (forall i, i < n ->
     map (fun c => (fst c, nth i (snd c) NaN))
       (zip_with (fun c c' => (fst c, snd c ++ snd c')%list) cs cs')
     = map (fun c => (fst c, nth i (snd c) NaN)) cs)
  /\ (forall j,
        map (fun c => (fst c, nth (n + j) (snd c) NaN))
          (zip_with (fun c c' => (fst c, snd c ++ snd c')%list) cs cs')
        = map (fun c => (fst c, nth j (snd c) NaN)) cs').
Proof.
  revert cs'. induction cs as [|[l v] cs IH]; intros [|[l' v'] cs'];
    simpl; try done.
  intros [= <- Hl] [Hv Hwf]%Forall_cons. simpl in Hv.
  destruct (IH cs' Hl Hwf) as [IH1 IH2]. split.
  - intros i Hi. rewrite IH1 by done. f_equal. f_equal.
    apply app_nth1. lia.
  - intros j. rewrite IH2. f_equal. f_equal.
    rewrite <- Hv. apply app_nth2_plus.
Qed.

Lemma records_stack fr below :
  labels fr = labels below -> wf_frame fr ->
  records (stack fr below) = (records fr ++ records below)%list.
Proof.
  intros Hl Hwf. unfold records. simpl.
  destruct (row_at_stack (cols fr) (cols below) (nrows fr) Hl Hwf)
    as [H1 H2].
  rewrite seq_app, map_app. f_equal.
  - apply map_ext_in. intros i [_ Hi]%in_seq. by apply H1.
  - simpl. rewrite (seq_from (nrows fr)), map_map.
    apply map_ext. intros j. apply H2.
Qed.

Lemma records_foldr_stack first frames :
  Forall (fun fr => labels fr = labels first) frames ->
  Forall wf_frame frames ->
  records (foldr stack (no_rows first) frames) = flat_map records frames.
Proof.
  induction 1 as [|fr frames Hfr Hl IH]; simpl; [intros _; reflexivity|].
  intros [Hwf Hall]%Forall_cons.
  rewrite records_stack; [by rewrite IH| |exact Hwf].
  rewrite labels_foldr_stack, labels_no_rows; [done|].
  eapply Forall_impl; [exact Hl|]. intros fr' ->. by rewrite labels_no_rows.
Qed.

Lemma length_column_or_nan key fr :
  wf_frame fr -> length (column_or_nan key fr) = nrows fr.
Proof.
  intros Hwf. unfold column_or_nan.
  destruct (columns_named key fr) as [|v vs] eqn:E;
    [apply length_replicate|].
  assert ((key, v) ∈ cols fr) as Hin
    by (apply columns_named_elem; rewrite E; left).
  unfold wf_frame in Hwf. rewrite Forall_forall in Hwf.
  exact (Hwf _ Hin).
Qed.

Lemma records_reindexed_cons keys fr rest :
  wf_frame fr ->
  records (reindexed keys (fr :: rest))
  = (map (reindexed_row keys fr) (seq 0 (nrows fr))
     ++ records (reindexed keys rest))%list.
Proof.
  intros Hwf. unfold records. simpl. rewrite seq_app, map_app. f_equal.
  - apply map_ext_in. intros i [_ Hi]%in_seq.
    unfold row_at, reindexed_row. simpl. rewrite map_map.
    apply map_ext. intros key. simpl. f_equal.
    apply app_nth1. rewrite length_column_or_nan by done. lia.
  - simpl. rewrite (seq_from (nrows fr)), map_map.
    apply map_ext. intros j. unfold row_at. simpl. rewrite !map_map.
    apply map_ext. intros key. simpl. f_equal.
    rewrite <- (length_column_or_nan key fr Hwf). apply app_nth2_plus.
Qed.

Lemma carries_reindexed_row keys fr i :
  NoDup (labels fr) -> labels fr ⊆ keys -> i < nrows fr ->
  carries (row_at fr i) (reindexed_row keys fr i).
Proof.
  intros Hnd Hsub Hi. unfold row_at, reindexed_row. split.
  - intros p ([l v] & -> & Hc)%list_elem_of_fmap. simpl.
    apply list_elem_of_fmap. exists l. split.
    + f_equal. unfold column_or_nan.
      assert (l ∈ labels fr) as Hl
        by (apply list_elem_of_fmap; by exists (l, v)).
      destruct (columns_named_unique l fr Hnd Hl) as [v' Hv'].
      rewrite Hv'. apply columns_named_elem in Hc. rewrite Hv' in Hc.
      by apply list_elem_of_singleton in Hc as ->.
    + apply Hsub. apply list_elem_of_fmap. by exists (l, v).
  - intros p (key & -> & Hk)%list_elem_of_fmap. simpl.
    unfold column_or_nan.
    destruct (columns_named key fr) as [|v vs] eqn:E.
    + right. apply nth_replicate_default.
    + left. apply list_elem_of_fmap. exists (key, v). split; [done|].
      apply columns_named_elem. rewrite E. left.
Qed.

Lemma records_reindexed keys frames :
  Forall (fun fr => wf_frame fr /\ NoDup (labels fr) /\ labels fr ⊆ keys)
    frames ->
  Forall2 carries (flat_map records frames) (records (reindexed keys frames)).
Proof.
  induction 1 as [|fr frames (Hwf & Hnd & Hsub) _ IH]; [constructor|].
  rewrite records_reindexed_cons by done. simpl.
  apply Forall2_app; [|exact IH].
  unfold records. apply Forall2_fmap, Forall_Forall2_diag, Forall_forall.
  intros i [_ Hi]%list_elem_of_In%in_seq.
  by apply carries_reindexed_row.
Qed.

(** The rows of the frames pass into the frame [concat] returns, in the
    order of the frames and, within a frame, of its rows. *)
Lemma concat_records frames df :
  Forall wf_frame frames -> returns (concat frames) df ->
  Forall2 carries (flat_map records frames) (records df).
Proof.
  intros Hwf (first & rest & -> & [[Hl ->]|[Hnd ->]])%concat_returns.
  - rewrite records_foldr_stack by done. apply Forall2_carries_refl.
  - apply records_reindexed, Forall_forall. intros fr Hfr.
    rewrite Forall_forall in Hwf, Hnd. repeat split; [by auto..|].
    intros key Hkey. apply elem_of_unique_from.
    split; [|by intros ?%elem_of_nil].
    apply list_elem_of_In, in_flat_map. exists fr.
    split; by apply list_elem_of_In.
Qed.

(** ** The loader: order of files and rows *)

Section LoaderOrder.
Context (w : World) (P : Coercers).
Context (data_dir : string) (encoding : option string).

Lemma parsed_wf filename raw :
  wf_world w -> parsed w data_dir encoding filename = Some raw ->
  wf_frame raw.
Proof.
  intros Hw. unfold parsed. destruct (discovered _ _ _); [|discriminate].
  destruct (reader_for _) as [[|]|]; simpl; [| |discriminate].
  - destruct (read_csv _ _ _) as [|df] eqn:E; [discriminate|].
    intros [= <-]. apply Hw. left. eauto.
  - destruct (read_excel _ _) as [|df] eqn:E; [discriminate|].
    intros [= <-]. apply Hw. right. eauto.
Qed.

Lemma wf_coerced_normalized raw :
  wf_frame raw -> wf_frame (coerced P (normalized raw)).
Proof.
  unfold wf_frame, coerced, normalized, rename. simpl.
  rewrite !Forall_fmap. intros H. eapply Forall_impl; [exact H|].
  intros [l v]. simpl.
  destruct (decide _); [simpl; by rewrite length_map|].
  destruct (decide _); simpl; [by rewrite length_map | done].
Qed.


End LoaderOrder.

Lemma sample_directory_wf files :
  Forall (fun f => match snd f with inr df => wf_frame df | inl _ => True end)
    files ->
  wf_world (Sample.directory files).
Proof.
  intros Hall raw. unfold Sample.directory. simpl.
  assert (forall path,
    from_option (fun f => snd (snd f)) (inl "No such file or directory")
      (list_find (fun f => Py.path_join "data" (fst f) = path) files)
    = inr raw -> wf_frame raw) as H.
  { intros path. destruct (list_find _ files) as [[i [name c]]|] eqn:E;
      simpl; [|discriminate].
    intros ->. apply list_find_Some in E as (Hi%list_elem_of_lookup_2 & _).
    rewrite Forall_forall in Hall. exact (Hall _ Hi). }
  intros [(path & enc & Hr)|(path & Hr)]; by eapply H.
Qed.

Lemma mixed_world_wf : wf_world Sample.mixed_world.
Proof. apply sample_directory_wf. repeat constructor. Qed.



(** C8 fails on a file in which two headers normalise to [Tpv]: the file
    passes the required-columns check, [df["Tpv"]] is then a frame, and
    [pd.to_numeric] raises out of [load_data], although the file before
    it had been loaded. *)
Lemma twice_tpv_raises_TypeError :
  has_required Sample.twice_tpv_csv = true
  /\ is_Some (contribution Sample.twice_tpv_world Sample.coercers "data" None
                "a.csv")
  /\ load_data Sample.twice_tpv_world Sample.coercers "data" None
     = raise (TypeError "arg must be a list, tuple, 1-d array, or Series").
Proof. repeat split. by eexists. Qed.

(** ** Grouping kernels *)

Section KernelFacts.
Context (k : cell).

Lemma Qc_sum_app xs ys : Qc_sum (xs ++ ys) = (Qc_sum xs + Qc_sum ys)%Qc.
Proof.
  induction xs as [|x xs IH]; simpl.
  - unfold Qc_sum. simpl. ring.
  - fold (Qc_sum (xs ++ ys)). fold (Qc_sum xs). rewrite IH. ring.
Qed.

Lemma non_missing_group_values {A} (rows : list (cell * option A)) :
  non_missing (map snd (filter (fun p => fst p = k) rows))
  = flat_map (observed k) rows.
Proof.
  unfold non_missing, observed.
  induction rows as [|[l v] rows IH]; [done|].
  rewrite filter_cons. cbn [fst snd flat_map].
  destruct (decide (l = k)); [|exact IH].
  destruct v; cbn; by rewrite <- IH.
Qed.

Lemma sum_step_observed sumx row :
  sum_step k sumx row = (sumx + Qc_sum ((observed k) row))%Qc.
Proof.
  destruct row as [l [x|]]; unfold observed, sum_step, Qc_sum; simpl;
    [destruct (decide (l = k)) | destruct (decide (l = k))]; simpl; ring.
Qed.

Lemma mean_step_observed acc row :
  mean_step k acc row
  = ((fst acc + Qc_sum ((observed k) row))%Qc, snd acc + length ((observed k) row)).
Proof.
  destruct acc as [s n], row as [l [x|]];
    unfold observed, mean_step, Qc_sum; simpl;
    try destruct (decide (l = k)); simpl; f_equal; try ring; lia.
Qed.

Lemma fold_sum_step rows : forall sumx,
  fold_left (sum_step k) rows sumx
  = (sumx + Qc_sum (flat_map (observed k) rows))%Qc.
Proof.
  induction rows as [|row rows IH]; intros sumx; simpl.
  - unfold Qc_sum. simpl. ring.
  - rewrite IH, sum_step_observed, Qc_sum_app. ring.
Qed.

Lemma fold_mean_step rows : forall acc,
  fold_left (mean_step k) rows acc
  = ((fst acc + Qc_sum (flat_map (observed k) rows))%Qc,
     snd acc + length (flat_map (observed k) rows)).
Proof.
  induction rows as [|row rows IH]; intros acc; simpl.
  - destruct acc as [s n]. unfold Qc_sum. simpl. f_equal; [ring | lia].
  - rewrite IH, mean_step_observed, Qc_sum_app, length_app. simpl.
    f_equal; [ring | lia].
Qed.

Lemma fold_count_step (rows : list (cell * cell)) : forall n,
  fold_left (count_step k) rows n
  = n + length (filter (fun row => fst row = k /\ notna (snd row) = true)
                  rows).
Proof.
  induction rows as [|[l v] rows IH]; intros n; simpl; [lia|].
  rewrite IH, filter_cons. unfold count_step. simpl.
  destruct (decide (l = k)) as [->|Hne].
  - destruct (notna v) eqn:Hv.
    + rewrite decide_True by done. simpl. lia.
    + rewrite decide_False by (intros [_ ?]; congruence). lia.
  - rewrite decide_False by (by intros [? _]). lia.
Qed.

(** The grouped sum is the sum of the non-missing values of the rows
    labelled [k]. *)
Lemma group_sum_spec keys values :
  group_sum k keys values
  = Qc_sum (non_missing (group_values k keys values)).
Proof.
  unfold group_sum, group_values.
  rewrite fold_sum_step, non_missing_group_values. ring.
Qed.

(** The grouped mean is their arithmetic mean. *)
Lemma group_mean_spec keys values :
  group_mean k keys values = mean (non_missing (group_values k keys values)).
Proof.
  unfold group_mean, group_values.
  rewrite fold_mean_step, non_missing_group_values. simpl.
  destruct (flat_map (observed k) (zip keys values)) as [|x xs]; simpl; [done|].
  f_equal. f_equal. unfold Qc_sum. simpl. ring.
Qed.

Lemma zip_diag {A} (l : list A) : zip l l = map (fun x => (x, x)) l.
Proof. induction l as [|x l IH]; simpl; [done | by rewrite IH]. Qed.

(** The grouped count of the key column is the number of rows labelled
    [k]. *)
Lemma group_count_spec keys :
  k <> NaN ->
  group_count k keys keys = length (filter (fun c => c = k) keys).
Proof.
  intros Hk. unfold group_count. rewrite fold_count_step, zip_diag. simpl.
  induction keys as [|c keys IH]; simpl; [done|].
  rewrite !filter_cons. simpl. destruct (decide (c = k)) as [->|Hne].
  - rewrite decide_True; [simpl; by rewrite IH|].
    split; [done|]. by destruct k.
  - rewrite decide_False by (by intros [? _]). exact IH.
Qed.

Lemma non_missing_all_missing {A} (values : list (option A)) :
  Forall (fun v => v = None) values -> non_missing values = [].
Proof.
  unfold non_missing. induction 1 as [|v values -> _ IH]; simpl; done.
Qed.

End KernelFacts.

(** ** Group keys *)

Lemma elem_of_group_keys keys k :
  k ∈ group_keys keys <-> k ∈ keys /\ k <> NaN.
Proof.
  unfold group_keys.
  rewrite merge_sort_Permutation, elem_of_remove_dups, list_elem_of_filter.
  split; intros [H1 H2]; split; try done.
  - by intros ->.
  - by destruct k.
Qed.

Lemma NoDup_group_keys keys : NoDup (group_keys keys).
Proof.
  unfold group_keys. rewrite merge_sort_Permutation. apply NoDup_remove_dups.
Qed.

Lemma group_keys_sorted keys : StronglySorted cell_lt (group_keys keys).
Proof.
  pose proof (NoDup_group_keys keys) as Hnd.
  assert (StronglySorted cell_le (group_keys keys)) as Hs
    by (apply StronglySorted_merge_sort; apply _).
  induction Hs as [|c cs Hs IH Hall]; [constructor|].
  apply NoDup_cons in Hnd as [Hc Hnd].
  constructor; [by apply IH|].
  apply Forall_forall. intros c' Hc'. rewrite Forall_forall in Hall.
  split; [by apply Hall | by intros ->].
Qed.

(** ** The aggregator *)

Lemma float_column_Some cells values :
  mapM as_float cells = Some values -> float_column cells = mret values.
Proof. unfold float_column. by intros ->. Qed.

Lemma grouper_single df key values :
  columns_named key df = [values] -> grouper df key = mret values.
Proof.
  intros H. unfold grouper. by rewrite (getitem_series _ _ _ H), bind_mret.
Qed.

Lemma agg_column_single df key values :
  columns_named key df = [values] -> agg_column df key = mret values.
Proof.
  intros H. unfold agg_column. by rewrite (getitem_series _ _ _ H), bind_mret.
Qed.

(** On a consolidated frame the aggregator returns one row per group key,
    computed by the three kernels. *)
Lemma compute_summary_consolidated df keys tpv markup :
  Consolidated df keys tpv markup ->
  compute_summary df
  = mret (map (fun k =>
                 MkSummaryRow k (group_sum k keys tpv)
                   (group_mean k keys markup) (group_count k keys keys))
            (group_keys keys)).
Proof.
  intros [Hk (ct & Hct & Ht) (cm & Hcm & Hm)]. unfold compute_summary.
  rewrite (grouper_single _ _ _ Hk), bind_mret.
  rewrite (agg_column_single _ _ _ Hct), bind_mret.
  rewrite (float_column_Some _ _ Ht), bind_mret.
  rewrite (agg_column_single _ _ _ Hcm), bind_mret.
  rewrite (float_column_Some _ _ Hm), bind_mret.
  rewrite (agg_column_single _ _ _ Hk), bind_mret. reflexivity.
Qed.

Section AggregatorClaims.
Context (df : DataFrame) (keys : list cell) (tpv markup : list (option Qc)).
Context (Hdf : Consolidated df keys tpv markup).




End AggregatorClaims.

(** ** Dropping rows *)

Lemma take_rows_app {A} (keep keep' : list nat) (values : list A) :
  take_rows (keep ++ keep') values
  = (take_rows keep values ++ take_rows keep' values)%list.
Proof. unfold take_rows. apply omap_app. Qed.

Lemma masked_snoc {A} (mask : list bool) (values : list A) b x :
  length mask = length values ->
  masked (mask ++ [b]) (values ++ [x])
  = (masked mask values ++ if b then [x] else [])%list.
Proof.
  intros Hlen. unfold masked.
  rewrite zip_with_app by done. rewrite filter_app, map_app. f_equal.
  by destruct b.
Qed.

Lemma filter_ext_in {A} (Q1 Q2 : A -> Prop)
    `{!forall x, Decision (Q1 x), !forall x, Decision (Q2 x)} (l : list A) :
  (forall x, x ∈ l -> Q1 x <-> Q2 x) -> filter Q1 l = filter Q2 l.
Proof.
  induction l as [|x l IH]; intros Heq; [done|].
  rewrite !filter_cons.
  destruct (decide (Q1 x)) as [H1|H1], (decide (Q2 x)) as [H2|H2].
  - f_equal. apply IH. intros y Hy. apply Heq. by right.
  - exfalso. apply H2, Heq; [left | done].
  - exfalso. apply H1, Heq; [left | done].
  - apply IH. intros y Hy. apply Heq. by right.
Qed.

Lemma omap_ext_in {A B} (f g : A -> option B) (l : list A) :
  (forall x, x ∈ l -> f x = g x) -> omap f l = omap g l.
Proof.
  intros Heq. apply list_omap_ext, Forall_Forall2_diag, Forall_forall.
  exact Heq.
Qed.

(** Selecting the positions a mask keeps is filtering by the mask. *)
Lemma take_rows_masked {A} (mask : list bool) : forall (values : list A),
  length values = length mask ->
  take_rows (filter (fun i => nth i mask false = true) (seq 0 (length mask)))
    values
  = masked mask values.
Proof.
  induction mask as [|b mask IH] using rev_ind; intros values Hlen.
  - by destruct values.
  - destruct values as [|x values' _] using rev_ind;
      rewrite !length_app in Hlen; simpl in Hlen; [lia|].
    assert (length values' = length mask) as Hlen' by lia.
    rewrite masked_snoc by done.
    rewrite length_app, seq_app, filter_app, take_rows_app. simpl. f_equal.
    + rewrite <- (IH values' Hlen').
      rewrite (filter_ext_in _ (fun i => nth i mask false = true)).
      * unfold take_rows. apply omap_ext_in.
        intros i [_ [_ Hi]%list_elem_of_In%in_seq]%list_elem_of_filter.
        apply lookup_app_l. lia.
      * intros i [_ Hi]%list_elem_of_In%in_seq.
        rewrite app_nth1 by lia. done.
    + rewrite filter_cons, filter_nil.
      rewrite app_nth2, Nat.sub_diag by lia. simpl.
      destruct b.
      * rewrite decide_True by done. unfold take_rows. simpl.
        rewrite lookup_app_r by lia.
        by rewrite Hlen', Nat.sub_diag.
      * by rewrite decide_False by done.
Qed.

Lemma masked_nil_r {A} mask : masked mask (@nil A) = [].
Proof. unfold masked. by destruct mask. Qed.

Lemma masked_cons {A} b mask (x : A) values :
  masked (b :: mask) (x :: values)
  = if b then x :: masked mask values else masked mask values.
Proof. unfold masked. simpl. rewrite filter_cons. by destruct b. Qed.

Lemma masked_notna keys :
  masked (map notna keys) keys = filter (fun c => notna c = true) keys.
Proof.
  induction keys as [|c keys IH]; [done|].
  change (map notna (c :: keys)) with (notna c :: map notna keys).
  rewrite masked_cons, filter_cons, IH.
  destruct (notna c) eqn:E; [by rewrite decide_True | by rewrite decide_False].
Qed.

Lemma mapM_masked {A B} (f : A -> option B) mask : forall l k,
  mapM f l = Some k -> mapM f (masked mask l) = Some (masked mask k).
Proof.
  intros l k H%mapM_Some. apply mapM_Some. revert mask.
  induction H as [|x y l k Hxy _ IH]; intros [|b mask];
    rewrite ?masked_nil_r; try constructor.
  rewrite !masked_cons. destruct b; [constructor|]; auto.
Qed.

(** The kernels of a group read nothing in the rows without label. *)
Lemma observed_masked {A} k keys : forall (values : list (option A)),
  k <> NaN ->
  flat_map (observed k)
    (zip (masked (map notna keys) keys) (masked (map notna keys) values))
  = flat_map (observed k) (zip keys values).
Proof.
  induction keys as [|c keys IH]; intros [|v values] Hk;
    rewrite ?masked_nil_r; try done.
  - by destruct (masked _ (c :: keys)).
  - change (map notna (c :: keys)) with (notna c :: map notna keys).
    rewrite !masked_cons. simpl. rewrite <- (IH values Hk).
    destruct c; simpl; try done.
    unfold observed. simpl. by rewrite decide_False by done.
Qed.

(** ** Rows without customer *)

Lemma wf_frame_column key df values :
  wf_frame df -> columns_named key df = [values] -> length values = nrows df.
Proof.
  intros Hwf H. unfold wf_frame in Hwf. rewrite Forall_forall in Hwf.
  apply (Hwf (key, values)), columns_named_elem. rewrite H. left.
Qed.

(** Dropping the rows in which a single column is missing masks every
    column by the non-missing positions of that column. *)
Lemma cols_dropna key df keys :
  wf_frame df -> columns_named key df = [keys] ->
  cols (dropna key df)
  = map (fun c => (fst c, masked (map notna keys) (snd c))) (cols df).
Proof.
  intros Hwf Hk. unfold dropna. simpl. apply map_ext_in.
  intros [l v] Hc%list_elem_of_In. simpl. f_equal.
  pose proof (wf_frame_column _ _ _ Hwf Hk) as Hlen.
  unfold wf_frame in Hwf. rewrite Forall_forall in Hwf.
  specialize (Hwf _ Hc). simpl in Hwf.
  rewrite <- (take_rows_masked (map notna keys) v)
    by (rewrite length_map; congruence).
  rewrite length_map, Hlen. f_equal. apply filter_ext_in. intros i _.
  unfold row_kept. rewrite Hk. simpl. rewrite andb_true_r.
  by rewrite <- (map_nth notna keys NaN i).
Qed.

Lemma columns_named_dropna key key' df keys :
  wf_frame df -> columns_named key df = [keys] ->
  columns_named key' (dropna key df)
  = map (masked (map notna keys)) (columns_named key' df).
Proof.
  intros Hwf Hk.
  assert (dropna key df
          = MkFrame (nrows (dropna key df))
              (map (fun c => (fst c, masked (map notna keys) (snd c)))
                 (cols df))) as ->
    by (rewrite <- (cols_dropna _ _ _ Hwf Hk); by destruct (dropna key df)).
  rewrite columns_named_map by done. unfold columns_named.
  by rewrite <- !list_fmap_compose.
Qed.

Lemma Consolidated_dropna df keys tpv markup :
  wf_frame df -> Consolidated df keys tpv markup ->
  Consolidated (dropna "Cliente" df)
    (masked (map notna keys) keys)
    (masked (map notna keys) tpv) (masked (map notna keys) markup).
Proof.
  intros Hwf [Hk (ct & Hct & Ht) (cm & Hcm & Hm)]. split.
  - by rewrite (columns_named_dropna _ _ _ _ Hwf Hk), Hk.
  - eexists. rewrite (columns_named_dropna _ _ _ _ Hwf Hk), Hct.
    split; [reflexivity | by apply mapM_masked].
  - eexists. rewrite (columns_named_dropna _ _ _ _ Hwf Hk), Hcm.
    split; [reflexivity | by apply mapM_masked].
Qed.

Lemma group_values_observed {A} k keys (values : list (option A)) :
  non_missing (group_values k keys values)
  = flat_map (observed k) (zip keys values).
Proof. apply non_missing_group_values. Qed.

Lemma filter_notna_idem (keys : list cell) :
  filter (fun c => notna c = true) (filter (fun c => notna c = true) keys)
  = filter (fun c => notna c = true) keys.
Proof.
  apply filter_all, Forall_forall. by intros c [? _]%list_elem_of_filter.
Qed.

Lemma filter_key_notna (k : cell) (keys : list cell) :
  k <> NaN ->
  filter (fun c => c = k) (filter (fun c => notna c = true) keys)
  = filter (fun c => c = k) keys.
Proof.
  intros Hk. induction keys as [|c keys IH]; [done|].
  rewrite (filter_cons (fun c => notna c = true)).
  destruct (decide (notna c = true)) as [Hc|Hc].
  - rewrite !filter_cons, IH. done.
  - rewrite IH, filter_cons_False; [done|].
    intros ->. by destruct k.
Qed.


(** ** The monthly series *)

Lemma length_take_rows {A} (values : list A) keep :
  Forall (fun i => i < length values) keep ->
  length (take_rows keep values) = length keep.
Proof.
  unfold take_rows. induction 1 as [|i keep Hi _ IH]; [done|].
  destruct (lookup_lt_is_Some_2 values i Hi) as [x Hx].
  cbn. rewrite Hx. cbn. by rewrite IH.
Qed.

Lemma nrows_dropna key df keys :
  wf_frame df -> columns_named key df = [keys] ->
  nrows (dropna key df) = length (filter (fun c => notna c = true) keys).
Proof.
  intros Hwf Hk. pose proof (wf_frame_column _ _ _ Hwf Hk) as Hlen.
  rewrite <- masked_notna.
  rewrite <- (take_rows_masked (map notna keys) keys)
    by (by rewrite length_map).
  rewrite length_take_rows.
  - unfold dropna. simpl. rewrite length_map, Hlen. f_equal.
    apply filter_ext_in. intros i _.
    unfold row_kept. rewrite Hk. simpl. rewrite andb_true_r.
    by rewrite <- (map_nth notna keys NaN i).
  - apply Forall_forall.
    intros i [_ [_ Hi]%list_elem_of_In%in_seq]%list_elem_of_filter.
    rewrite length_map in Hi. lia.
Qed.

Lemma labels_dropna key df : labels (dropna key df) = labels df.
Proof.
  unfold labels, dropna. simpl. rewrite <- list_fmap_compose.
  by apply list_fmap_ext.
Qed.

(** The non-missing cells of a datetime column are timestamps. *)
Lemma as_datetime_notna data :
  Forall datetime_or_missing data ->
  mapM as_datetime (filter (fun c => notna c = true) data)
  = Some (omap as_datetime data).
Proof.
  intros H. apply mapM_Some. induction H as [|c data Hc _ IH]; [constructor|].
  destruct c as [s|q|t|]; try done.
  rewrite filter_cons_True by done. cbn. by constructor.
Qed.

Lemma columns_named_setitem_new key key' df values :
  key ∉ labels df ->
  columns_named key' (setitem df key values)
  = (columns_named key' df ++ if decide (key = key') then [values] else [])
    %list.
Proof.
  intros Hk. unfold setitem. rewrite decide_False by done.
  unfold columns_named. simpl. rewrite filter_app, map_app. f_equal.
  rewrite filter_cons, filter_nil. simpl. by destruct (decide (key = key')).
Qed.

(** The values the bucket of the month [m] reads in one row of the
    dataset. *)
Lemma bucket_observed {A} m data : forall (values : list (option A)),
  Forall datetime_or_missing data ->
  flat_map (observed (Date m))
    (zip (map (fun t => Date (month_start t)) (omap as_datetime data))
       (masked (map notna data) values))
  = non_missing
      (map snd (filter (fun p => month_of (fst p) = Some m)
                  (zip data values))).
Proof.
  intros values H. revert values.
  induction H as [|c data Hc _ IH]; intros [|v values];
    rewrite ?masked_nil_r; try done.
  - by destruct (map _ (omap as_datetime (c :: data))).
  - change (map notna (c :: data)) with (notna c :: map notna data).
    rewrite masked_cons. cbn [zip zip_with]. rewrite filter_cons.
    destruct c as [s|q|t|]; try done; cbn.
    + rewrite IH. unfold observed, month_of. cbn.
      destruct (decide (Date (month_start t) = Date m)) as [E|E];
        destruct (decide (Some (month_start t) = Some m)) as [E'|E'];
        try congruence; cbn; [|done].
      unfold non_missing. by destruct v.
    + rewrite IH. rewrite decide_False by done. done.
Qed.

Section MonthlyClaim.
Context (df : DataFrame) (keys data : list cell).
Context (tpv markup : list (option Qc)).
Context (Hdf : Consolidated df keys tpv markup) (Hwf : wf_frame df).
Context (Hdata : columns_named "Data" df = [data]).
Context (Hdt : Forall datetime_or_missing data).
Context (Hnew : "AnoMes" ∉ labels df).

Local Abbreviation months :=
  (map (fun t => Date (month_start t)) (omap as_datetime data)).

(** The series [main] computes when some date is not missing. *)
Lemma ts_summary_computed t :
  Date t ∈ data ->
  ts_summary df
  = mret (Some (map (fun k =>
                       Monthly.MkRow k
                         (group_sum k months (masked (map notna data) tpv))
                         (group_mean k months
                            (masked (map notna data) markup)))
                  (group_keys months))).
Proof.
  intros Ht. destruct Hdf as [_ (ct & Hct & Htpv) (cm & Hcm & Hmk)].
  unfold ts_summary.
  assert ("Data" ∈ labels df) as Hin.
  { destruct (decide ("Data" ∈ labels df)) as [|Hn]; [done|].
    apply columns_named_nil in Hn. congruence. }
  rewrite bool_decide_eq_true_2 by done.
  assert (empty (dropna "Data" df) = false) as ->.
  { unfold empty. apply orb_false_iff. split; apply bool_decide_eq_false_2.
    - rewrite (nrows_dropna _ _ _ Hwf Hdata).
      assert (Date t ∈ filter (fun c => notna c = true) data) as Hf
        by (by apply list_elem_of_filter).
      destruct (filter _ data); [by apply elem_of_nil in Hf | done].
    - intros E. pose proof (labels_dropna "Data" df) as Hl.
      unfold labels in Hl at 1. rewrite E in Hl. simpl in Hl.
      rewrite <- Hl in Hin. by apply elem_of_nil in Hin. }
  cbn [negb].
  assert (columns_named "Data" (dropna "Data" df)
          = [filter (fun c => notna c = true) data]) as Hd.
  { rewrite (columns_named_dropna _ _ _ _ Hwf Hdata), Hdata, <- masked_notna.
    reflexivity. }
  rewrite (getitem_series _ _ _ Hd), bind_mret.
  unfold dt_month_start. rewrite (as_datetime_notna _ Hdt), bind_mret.
  assert ("AnoMes" ∉ labels (dropna "Data" df)) as Hnew'
    by (by rewrite labels_dropna).
  rewrite (grouper_single _ "AnoMes" months), bind_mret.
  2:{ rewrite columns_named_setitem_new by done.
      rewrite decide_True by done.
      assert (columns_named "AnoMes" (dropna "Data" df) = []) as ->
        by (by apply columns_named_nil).
      done. }
  rewrite (agg_column_single _ "Tpv" (masked (map notna data) ct)), bind_mret.
  2:{ rewrite columns_named_setitem_new by done.
      rewrite decide_False by done.
      by rewrite app_nil_r, (columns_named_dropna _ _ _ _ Hwf Hdata), Hct. }
  rewrite (float_column_Some _ _ (mapM_masked _ _ _ _ Htpv)), bind_mret.
  rewrite (agg_column_single _ "Markup" (masked (map notna data) cm)),
    bind_mret.
  2:{ rewrite columns_named_setitem_new by done.
      rewrite decide_False by done.
      by rewrite app_nil_r, (columns_named_dropna _ _ _ _ Hwf Hdata), Hcm. }
  rewrite (float_column_Some _ _ (mapM_masked _ _ _ _ Hmk)), bind_mret.
  reflexivity.
Qed.


End MonthlyClaim.

(** ** The claims on the sample dataset *)

Lemma dataset_consolidated :
  Consolidated Sample.dataset Sample.dataset_keys Sample.dataset_tpv
    Sample.dataset_markup.
Proof. split; [reflexivity | by eexists | by eexists]. Qed.

Lemma dataset_wf : wf_frame Sample.dataset.
Proof. repeat constructor. Qed.






(** The end-to-end scenario of the specification: Acme 300 / 15 / 2 and
    Globex 50 / 5 / 1, and a notice for the text file. *)
Example acme_scenario :
  let run := load_data Sample.acme_world Sample.coercers "data" None
             ≫= compute_summary in
  (exists summary,
     returns run summary
     /\ map (fun r => (Cliente r, this (Tpv_Total r),
                       this <$> Markup_Medio r, Registros r)) summary
        = [ (Str "Acme", 300 # 1, Some (15 # 1), 2);
            (Str "Globex", 50 # 1, Some (5 # 1), 1) ])
  /\ printed run = [Unsupported "leia-me.txt"].
Proof. split; [eexists; split|]; reflexivity. Qed.

(** The sample dataset: the row without customer is in no group, Initech
    has a zero total and no mean. *)
Example dataset_summary :
  exists summary,
    returns (compute_summary Sample.dataset) summary
    /\ map (fun r => (Cliente r, this (Tpv_Total r),
                      this <$> Markup_Medio r, Registros r)) summary
       = [ (Str "Acme", 300 # 1, Some (15 # 1), 2);
           (Str "Globex", 50 # 1, Some (5 # 1), 1);
           (Str "Initech", 0 # 1, None, 1) ].
Proof. eexists. split; reflexivity. Qed.

(** January 2024 holds the rows of the 5th, the 28th and the 9th. *)
Example dataset_months :
  exists series,
    returns (ts_summary Sample.dataset) (Some series)
    /\ map (fun r => (Monthly.AnoMes r, this (Monthly.Tpv_Total r))) series
       = [ (Date (MkTimestamp 2023 12 1 0), 200 # 1);
           (Date (MkTimestamp 2024 1 1 0), 180 # 1) ].
Proof. eexists. split; reflexivity. Qed.

(** Files are taken in code-point order: capitals before small letters,
    the tilde last. *)
Example sorted_names :
  sorted ["vendas.csv"; "~$vendas.csv"; "antigo.CSV"; "Zeta.csv"]
  = ["Zeta.csv"; "antigo.CSV"; "vendas.csv"; "~$vendas.csv"].
Proof. reflexivity. Qed.

(** ** What the monthly series may assume of a loaded dataset *)

Lemma concat_labels_inv frames df key :
  returns (concat frames) df -> key ∈ labels df ->
  exists fr, fr ∈ frames /\ key ∈ labels fr.
Proof.
  intros (first & rest & -> & [[Hl ->]|[Hnd ->]])%concat_returns.
  - rewrite labels_foldr_stack, labels_no_rows.
    + intros Hk. exists first. split; [left | done].
    + eapply Forall_impl; [exact Hl|]. intros fr ->.
      by rewrite labels_no_rows.
  - rewrite labels_reindexed.
    intros [(fr & Hfr & Hk)%list_elem_of_In%in_flat_map _]%elem_of_unique_from.
    exists fr. split; by apply list_elem_of_In.
Qed.

(** A label that names one column where it occurs names one column of
    the concatenation; the frames without it contribute missing values. *)
Lemma concat_single_or_absent key (Q : cell -> Prop) frames df :
  Q NaN -> returns (concat frames) df ->
  Forall (fun fr => key ∈ labels fr ->
                    exists v, columns_named key fr = [v] /\ Forall Q v)
    frames ->
  key ∈ labels df ->
  exists v, columns_named key df = [v] /\ Forall Q v.
Proof.
  intros HQ Hc Hall Hk. pose proof Hc as Hc'.
  apply concat_returns in Hc' as (first & rest & -> & [[Hl ->]|[Hnd ->]]).
  - apply (concat_single _ _ _ _ Hc), Forall_forall. intros fr Hfr.
    rewrite Forall_forall in Hall, Hl. apply (Hall fr Hfr).
    rewrite (Hl fr Hfr). revert Hk.
    rewrite labels_foldr_stack, labels_no_rows; [done|].
    apply Forall_forall. intros fr' Hfr'.
    by rewrite labels_no_rows, (Hl fr' Hfr').
  - rewrite labels_reindexed in Hk. eexists.
    split; [by apply columns_named_reindexed; [apply NoDup_unique_from|] |].
    clear Hk Hc Hnd. induction Hall as [|fr frames Hfr _ IH]; [constructor|].
    cbn [flat_map]. apply Forall_app. split; [|exact IH].
    unfold column_or_nan.
    destruct (columns_named key fr) as [|v vs] eqn:E.
    + apply Forall_forall. by intros c ->%elem_of_replicate_inv.
    + destruct Hfr as (v' & Hv' & HQ').
      * destruct (decide (key ∈ labels fr)) as [|Hn]; [done|].
        apply columns_named_nil in Hn. congruence.
      * congruence.
Qed.

Section LoadedDataset.
Context (w : World) (P : Coercers).
Context (data_dir : string) (encoding : option string).
Context (df : DataFrame).
Context (Hdf : returns (load_data w P data_dir encoding) df).

(** Every label of a loaded dataset is a normalised header. *)
Lemma load_data_labels_titled label :
  label ∈ labels df -> Py.title label = label.
Proof.
  destruct (load_data_returns _ _ _ _ _ Hdf)
    as (names & _ & _ & _ & Hc & _).
  intros (fr & (f & _ & (raw & _ & _ & ->)%contribution_Some)
                 %elem_of_contributions & Hl)%(concat_labels_inv _ _ _ Hc).
  rewrite labels_coerced, <- titled_normalized in Hl.
  apply list_elem_of_fmap in Hl as (l & -> & _). apply title_idem.
Qed.

(** No loaded dataset has a column [AnoMes] before [main] adds it. *)
Lemma load_data_no_AnoMes : "AnoMes" ∉ labels df.
Proof. by intros H%load_data_labels_titled. Qed.

Lemma columns_named_coerced_data raw v :
  columns_named "Data" raw = [v] ->
  columns_named "Data" (coerced P raw) = [map (to_datetime_scalar P) v].
Proof.
  intros Hv. unfold coerced. rewrite columns_named_map.
  - change [map (to_datetime_scalar P) v]
      with (map (map (to_datetime_scalar P)) [v]).
    rewrite <- Hv. unfold columns_named. rewrite <- list_fmap_compose.
    apply list_fmap_ext.
    intros i c [Hc _]%list_elem_of_lookup_2%list_elem_of_filter. simpl.
    by rewrite Hc.
  - intros c. destruct (decide _); [done|]. by destruct (decide _).
Qed.

(** Its [Data] column, if it has one, is a single column of timestamps
    and missing values. *)
Lemma load_data_data_column :
  "Data" ∈ labels df ->
  exists data,
    columns_named "Data" df = [data] /\ Forall datetime_or_missing data.
Proof.
  destruct (load_data_returns _ _ _ _ _ Hdf)
    as (names & _ & Hall & _ & Hc & _).
  apply (concat_single_or_absent _ _ _ _ I Hc), Forall_forall.
  intros fr (f & Hf & (raw & Hp & Hreq & ->)%contribution_Some)
    %elem_of_contributions.
  rewrite labels_coerced. intros Hin. rewrite Forall_forall in Hall.
  destruct (Hall f Hf raw Hp Hreq) as (_ & _ & Hd).
  destruct (Hd Hin) as [v Hv]. eexists.
  split; [by apply columns_named_coerced_data|].
  apply Forall_fmap, Forall_forall. intros c _.
  apply to_datetime_scalar_total.
Qed.

End LoadedDataset.

(** * Further properties of the loader *)

(** ** The listing order does not matter *)

Lemma sorted_of_Permutation names names' :
  names ≡ₚ names' -> sorted names = sorted names'.
Proof.
  intros Hp. apply (StronglySorted_unique string_le).
  - apply sorted_StronglySorted.
  - apply sorted_StronglySorted.
  - by rewrite !sorted_Permutation.
Qed.

(** X1.  The dataset, the notices and the exceptions of [load_data] do not
    depend on the order in which [os.listdir] enumerates the directory. *)
Theorem load_data_listing_order w P data_dir encoding names names' :
  listdir w data_dir = Some names -> names ≡ₚ names' ->
  load_data (relisted w names') P data_dir encoding
  = load_data w P data_dir encoding.
Proof.
  intros Hl Hp.
  rewrite (load_data_accessible w P data_dir encoding names Hl).
  rewrite (load_data_accessible (relisted w names') P data_dir encoding
             names' eq_refl).
  by rewrite (sorted_of_Permutation _ _ Hp).
Qed.

Lemma load_data_listing_order_witness :
  load_data
    (relisted Sample.mixed_world
       ["sem_markup.csv"; "quebrado.xlsx"; "antigo.CSV"; "~$vendas.csv";
        "vendas.csv"])
    Sample.coercers "data" None
  = load_data Sample.mixed_world Sample.coercers "data" None.
Proof.
  apply (load_data_listing_order Sample.mixed_world Sample.coercers "data"
           None _ _ eq_refl).
  apply (Permutation_rev
           ["vendas.csv"; "~$vendas.csv"; "antigo.CSV"; "quebrado.xlsx";
            "sem_markup.csv"]).
Defined.

(** ** The notices of a run *)

Section Notices.
Context (w : World) (P : Coercers).
Context (data_dir : string) (encoding : option string).

Lemma notices_diagnostic filename :
  loadable w data_dir encoding filename ->
  notices w P data_dir encoding filename
  = option_list (diagnostic w data_dir encoding filename).
Proof.
  intros Hl. unfold diagnostic.
  destruct (parsed w data_dir encoding filename) as [raw|] eqn:Hp.
  - pose proof Hp as Hp'. unfold parsed in Hp'.
    destruct (discovered w data_dir filename); [|discriminate].
    destruct (reader_for _) as [r|]; [|discriminate].
    destruct (read w r _ encoding) as [exc|raw']; [discriminate|].
    injection Hp' as ->.
    destruct (has_required raw) eqn:Hr.
    + unfold notices. rewrite (load_file_required _ _ _ _ _ _ _ Hp Hr).
      rewrite (coerce_columns_single P _ (titled_normalized raw)
                 (Hl raw Hp Hr)), bind_mret.
      reflexivity.
    + by rewrite (notices_missing_columns _ _ _ _ _ _ Hp Hr).
  - unfold notices, load_file. unfold parsed in Hp. unfold discovered in *.
    destruct (Py.startswith filename "~"); simpl in *; [done|].
    destruct (isfile w _); simpl in *; [|done].
    destruct (reader_for _) as [r|]; [|done].
    destruct (read w r _ encoding) as [exc|raw]; [done | discriminate].
Qed.


End Notices.


(** ** Case of the extension *)

Lemma tolower_separators c :
  Ascii.eqb (Py.tolower c) "/" = Ascii.eqb c "/"
  /\ Ascii.eqb (Py.tolower c) "." = Ascii.eqb c ".".
Proof. destruct c as [[] [] [] [] [] [] [] []]; by vm_compute. Qed.

Lemma lower_has_slash s :
  existsb (Ascii.eqb "/") (list_ascii_of_string (Py.lower s))
  = existsb (Ascii.eqb "/") (list_ascii_of_string s).
Proof.
  induction s as [|c s IH]; [done|].
  cbn [Py.lower list_ascii_of_string existsb]. rewrite IH. f_equal.
  destruct c as [[] [] [] [] [] [] [] []]; by vm_compute.
Qed.

(** Lower-casing commutes with taking the extension. *)
Lemma lower_ext_from s : forall seen,
  Py.lower (Py.ext_from seen s) = Py.ext_from seen (Py.lower s).
Proof.
  induction s as [|c s IH]; intros seen; [done|]. simpl.
  destruct (tolower_separators c) as [-> ->].
  destruct (Ascii.eqb c "/"); [apply IH|].
  destruct (Ascii.eqb c "."); [|apply IH].
  rewrite <- IH, lower_has_slash.
  destruct (Py.ext_from seen s) as [|c' e]; simpl; [|done].
  by destruct (seen && _).
Qed.

(** X3.  The dispatch on the extension does not look at the case of the
    file name: two names equal up to case go to the same reader, or are
    both unsupported. *)
Theorem reader_ignores_case f g :
  Py.lower f = Py.lower g ->
  reader_for (Py.lower (Py.splitext_ext f))
  = reader_for (Py.lower (Py.splitext_ext g)).
Proof.
  intros H. unfold Py.splitext_ext. by rewrite !lower_ext_from, H.
Qed.

Lemma reader_ignores_case_witness :
  reader_for (Py.lower (Py.splitext_ext "Vendas.2024.XLSX"))
  = reader_for (Py.lower (Py.splitext_ext "vendas.2024.xlsx")).
Proof. apply reader_ignores_case. reflexivity. Defined.

(** ** The default encoding *)

Lemma for_each_ext {A S} (body body' : S -> A -> Run S) xs : forall acc,
  (forall acc x, body acc x = body' acc x) ->
  for_each body acc xs = for_each body' acc xs.
Proof.
  induction xs as [|x xs IH]; intros acc H; [done|]. simpl.
  rewrite H. unfold mbind, Run_bind.
  destruct (outcome (body' acc x)); [done|]. by rewrite IH.
Qed.

Lemma load_data_encoding w P data_dir e1 e2 :
  encoding_or_utf8 e1 = encoding_or_utf8 e2 ->
  load_data w P data_dir e1 = load_data w P data_dir e2.
Proof.
  intros H. unfold load_data. destruct (listdir w data_dir); [|done].
  rewrite !bind_mret. f_equal. apply for_each_ext. intros acc f.
  unfold load_file, read.
  destruct (Py.startswith f "~"); [done|].
  destruct (negb _); [done|].
  destruct (reader_for _) as [[|]|]; [|done..]. by rewrite H.
Qed.

(** X4.  Without an encoding, or with the empty one, CSV files are read
    as UTF-8: the run is the run with [encoding="utf-8"]. *)
Theorem load_data_default_encoding w P data_dir :
  load_data w P data_dir None = load_data w P data_dir (Some "utf-8")
  /\ load_data w P data_dir (Some "") = load_data w P data_dir (Some "utf-8").
Proof. split; by apply load_data_encoding. Qed.

(** ** Case and white space of the headers *)

Lemma toupper_tolower c :
  Py.isupper c = true ->
  Py.toupper (Py.tolower c) = c /\ Py.islower c = false.
Proof.
  destruct c as [[] [] [] [] [] [] [] []]; vm_compute; intros;
    try discriminate; auto.
Qed.

Lemma tolower_uncased c :
  Py.isupper c = false ->
  Py.tolower c = c.
Proof.
  destruct c as [[] [] [] [] [] [] [] []]; vm_compute; intros;
    try discriminate; auto.
Qed.

(** Title-casing forgets the case the string came in. *)
Lemma title_from_lower s : forall prev,
  Py.title_from prev (Py.lower s) = Py.title_from prev s.
Proof.
  induction s as [|c s IH]; intros prev; [done|]. simpl.
  destruct (Py.isupper c) eqn:Hu.
  - destruct (toupper_tolower c Hu) as [Hc Hl].
    rewrite Hl, (tolower_cased c Hl Hu), Hc, !IH. reflexivity.
  - rewrite (tolower_uncased c Hu), Hu, !IH. reflexivity.
Qed.

Lemma title_of_lower s : Py.title (Py.lower s) = Py.title s.
Proof. apply title_from_lower. Qed.



(** ** The exceptions of the loader *)

Lemma getitem_raises_absent df key e :
  raises (getitem df key) e -> key ∉ labels df.
Proof.
  unfold getitem, raises. intros H. apply columns_named_nil.
  destruct (columns_named key df) as [|v [|v' l]]; [done | done..].
Qed.

Lemma to_numeric_raises_TypeError P arg e :
  raises (to_numeric P arg) e ->
  e = TypeError "arg must be a list, tuple, 1-d array, or Series".
Proof. destruct arg; unfold raises; simpl; [done | congruence]. Qed.

Lemma to_datetime_raises_ValueError P arg e :
  raises (to_datetime P arg) e ->
  e = ValueError "cannot assemble with duplicate keys".
Proof. destruct arg; unfold raises; simpl; [done | congruence]. Qed.

Lemma mret_raises {A} (a : A) e : ~ raises (mret a) e.
Proof. unfold raises. simpl. discriminate. Qed.

Section CoerceErrors.
Context (P : Coercers) (df : DataFrame).
Context (Ht : titled df = labels df).
Context (Hreq : required_cols ⊆ labels df).

(** On a frame that passed the required-columns check the column steps
    find every label they look up: they raise only over a label that
    names several columns. *)
Lemma coerce_columns_raises_repeated e :
  raises (coerce_columns P df) e ->
  e = TypeError "arg must be a list, tuple, 1-d array, or Series"
  \/ e = ValueError "cannot assemble with duplicate keys".
Proof.
  assert ("Tpv" ∈ labels df /\ "Markup" ∈ labels df) as [HT HM]
    by (split; apply Hreq; unfold required_cols; rewrite !elem_of_cons; auto).
  unfold coerce_columns. rewrite Ht.
  intros [H|(d1 & Hd1 & H)]%bind_raises.
  { right. case_bool_decide as Hin; [|by apply mret_raises in H].
    apply bind_raises in H as [H|(arg & _ & H)].
    - by apply getitem_raises_absent in H.
    - apply bind_raises in H as [H|(values & _ & H)].
      + by eapply to_datetime_raises_ValueError.
      + by apply mret_raises in H. }
  left.
  assert (d1 = apply_col "Data" (to_datetime_scalar P) df) as ->.
  { case_bool_decide as Hin.
    - apply bind_returns in Hd1 as (arg & Harg & Hd1).
      apply bind_returns in Hd1 as (values & Hv & Hd1).
      apply to_datetime_returns in Hv as (v & -> & ->).
      apply getitem_returns_series in Harg.
      apply returns_mret_inv in Hd1 as ->. by apply setitem_single.
    - apply returns_mret_inv in Hd1 as ->. by rewrite apply_col_absent. }
  apply bind_raises in H as [H|(arg & Harg & H)].
  { apply getitem_raises_absent in H. by rewrite labels_apply_col in H. }
  apply bind_raises in H as [H|(values & Hv & H)];
    [by eapply to_numeric_raises_TypeError|].
  apply to_numeric_returns in Hv as (vt & -> & ->).
  apply getitem_returns_series in Harg.
  rewrite (setitem_single _ _ _ _ Harg) in H.
  apply bind_raises in H as [H|(arg & _ & H)].
  { apply getitem_raises_absent in H. by rewrite !labels_apply_col in H. }
  apply bind_raises in H as [H|(values & _ & H)];
    [by eapply to_numeric_raises_TypeError | by apply mret_raises in H].
Qed.

End CoerceErrors.

Section LoaderErrors.
Context (w : World) (P : Coercers).
Context (data_dir : string) (encoding : option string).

Lemma load_file_raises_repeated acc filename e :
  raises (load_file w P data_dir encoding acc filename) e ->
  e = TypeError "arg must be a list, tuple, 1-d array, or Series"
  \/ e = ValueError "cannot assemble with duplicate keys".
Proof.
  destruct (parsed w data_dir encoding filename) as [raw|] eqn:Hp.
  - destruct (has_required raw) eqn:Hr.
    + rewrite (load_file_required _ _ _ _ _ _ _ Hp Hr).
      intros [H|(? & _ & H)]%bind_raises; [|by apply mret_raises in H].
      eapply coerce_columns_raises_repeated; [| |exact H].
      * apply titled_normalized.
      * unfold has_required in Hr. by apply bool_decide_eq_true in Hr.
    + rewrite (load_file_missing_columns _ _ _ _ _ _ _ Hp Hr). discriminate.
  - destruct (load_file_unparsed w P _ _ acc _ Hp) as [-> _]. discriminate.
Qed.

Lemma for_each_raises_repeated names : forall acc e,
  raises (for_each (load_file w P data_dir encoding) acc names) e ->
  e = TypeError "arg must be a list, tuple, 1-d array, or Series"
  \/ e = ValueError "cannot assemble with duplicate keys".
Proof.
  induction names as [|f names IH]; intros acc e; simpl;
    [by intros ?%mret_raises|].
  intros [H|(acc' & _ & H)]%bind_raises.
  - by eapply load_file_raises_repeated.
  - by eapply IH.
Qed.

Lemma concat_raises_cons fr frames e :
  raises (concat (fr :: frames)) e -> e = InvalidIndexError.
Proof.
  unfold concat, raises. destruct (forallb _ _); [discriminate|].
  destruct (existsb _ _); [|discriminate]. simpl. congruence.
Qed.

(** X6.  Five exceptions can escape [load_data], and no other: the one of
    [os.listdir], the lack of any valid file, and three over files with a
    repeated label.  In particular no look-up of a column fails
    ([KeyError]), and [pd.concat] is never given an empty list.  The
    headers of a frame are strings here, as [World] has the readers
    return them. *)
Theorem load_data_exceptions e :
  raises (load_data w P data_dir encoding) e -> loader_error data_dir e.
Proof.
  unfold loader_error.
  destruct (listdir w data_dir) as [names|] eqn:Hl.
  - rewrite (load_data_accessible _ _ _ _ _ Hl).
    intros [H|([|fr frames] & _ & H)]%bind_raises.
    + apply for_each_raises_repeated in H as [-> | ->]; auto.
    + unfold raises in H. simpl in H. injection H as <-. auto.
    + apply concat_raises_cons in H as ->. auto 10.
  - rewrite (load_data_inaccessible _ _ _ _ Hl). unfold raises. simpl.
    intros [= <-]. auto.
Qed.



End LoaderErrors.

Lemma load_data_exceptions_witness :
  loader_error "data"
    (TypeError "arg must be a list, tuple, 1-d array, or Series").
Proof.
  apply (load_data_exceptions Sample.twice_tpv_world Sample.coercers "data"
           None).
  reflexivity.
Defined.



(** ** What the loader does to the cells *)

Section Cells.
Context (w : World) (P : Coercers).
Context (data_dir : string) (encoding : option string).

Lemma passed_through_datetime c :
  passed_through "Data" c (to_datetime_scalar P c).
Proof.
  destruct c; simpl; try done.
  intros H. exfalso. apply H. by left.
Qed.

Lemma passed_through_numeric label c :
  label ∈ ["Tpv"; "Markup"] ->
  passed_through label c (to_numeric_scalar P c).
Proof.
  intros Hl. destruct c; simpl; try done.
  - intros Hn. exfalso. apply Hn. by right.
  - intros ->. repeat (apply elem_of_cons in Hl as [?|Hl]; [done|]).
    by apply elem_of_nil in Hl.
Qed.

Lemma passed_through_refl label c : passed_through label c c.
Proof. by destruct c. Qed.


(** ** A single valid file *)

Lemma stack_no_rows fr : stack fr (no_rows fr) = fr.
Proof.
  destruct fr as [n cs]. unfold stack, no_rows. simpl. f_equal; [lia|].
  induction cs as [|[l v] cs IH]; [done|]. simpl.
  by rewrite app_nil_r, IH.
Qed.

Lemma concat_singleton fr : concat [fr] = mret fr.
Proof.
  unfold concat. simpl. rewrite bool_decide_eq_true_2 by done. simpl.
  by rewrite stack_no_rows.
Qed.


End Cells.



(** * Further properties of the aggregator *)

(** ** Sums over the groups *)

Lemma Qc_sum_cons x xs : Qc_sum (x :: xs) = (x + Qc_sum xs)%Qc.
Proof. reflexivity. Qed.

Lemma Qc_sum_map_plus {A} (f g : A -> Qc) l :
  Qc_sum (map (fun k => (f k + g k)%Qc) l)
  = (Qc_sum (map f l) + Qc_sum (map g l))%Qc.
Proof.
  induction l as [|k l IH]; cbn [map].
  - unfold Qc_sum. simpl. ring.
  - rewrite !Qc_sum_cons, IH. ring.
Qed.

Lemma Qc_sum_map_zero {A} (l : list A) :
  Qc_sum (map (fun _ => Q2Qc 0) l) = Q2Qc 0.
Proof.
  induction l as [|k l IH]; cbn [map]; [done|]. rewrite Qc_sum_cons, IH. ring.
Qed.

(** A row is observed by the group of its label, and by no other. *)
Lemma Qc_sum_observed_groups (ks : list cell) (row : cell * option Qc) :
  NoDup ks ->
  Qc_sum (map (fun k => Qc_sum (observed k row)) ks)
  = Qc_sum (if decide (fst row ∈ ks) then option_list (snd row) else []).
Proof.
  induction 1 as [|k ks Hk _ IH]; [done|].
  cbn [map]. rewrite Qc_sum_cons, IH. unfold observed at 1.
  destruct (decide (fst row = k)) as [E|E].
  - rewrite decide_False by congruence.
    rewrite decide_True by (rewrite E; left). unfold Qc_sum. simpl. ring.
  - destruct (decide (fst row ∈ ks)) as [Hin|Hin].
    + rewrite decide_True by (by right). unfold Qc_sum. simpl. ring.
    + rewrite decide_False by (rewrite elem_of_cons; intros [?|?]; done).
      unfold Qc_sum. simpl. ring.
Qed.

Lemma Qc_sum_groups (ks : list cell) (rows : list (cell * option Qc)) :
  NoDup ks ->
  Qc_sum (map (fun k => Qc_sum (flat_map (observed k) rows)) ks)
  = Qc_sum (flat_map (fun row => if decide (fst row ∈ ks)
                                 then option_list (snd row) else []) rows).
Proof.
  intros Hnd. induction rows as [|row rows IH]; cbn [flat_map].
  - apply Qc_sum_map_zero.
  - rewrite Qc_sum_app, <- IH, <- (Qc_sum_observed_groups _ _ Hnd).
    rewrite <- Qc_sum_map_plus. f_equal. apply map_ext. intros k.
    apply Qc_sum_app.
Qed.

Lemma count_groups (ks keys : list cell) :
  NoDup ks ->
  sum_list (map (fun k => length (filter (fun c => c = k) keys)) ks)
  = length (filter (fun c => c ∈ ks) keys).
Proof.
  intros Hnd. induction keys as [|c keys IH].
  - simpl. induction ks as [|k ks IHk]; [done|].
    apply NoDup_cons in Hnd as [_ Hnd]. simpl. by rewrite IHk.
  - rewrite (filter_cons (fun c => c ∈ ks)).
    assert (sum_list (map (fun k => length (filter (fun c' => c' = k)
                                              (c :: keys))) ks)
            = (if decide (c ∈ ks) then 1 else 0)
              + sum_list (map (fun k => length (filter (fun c' => c' = k)
                                                  keys)) ks)) as ->.
    { clear IH. induction Hnd as [|k ks Hk _ IHk]; [done|].
      cbn [map sum_list sum_list_with]. rewrite IHk, filter_cons.
      destruct (decide (c = k)) as [->|E].
      - rewrite decide_False by done. rewrite decide_True by left.
        simpl. lia.
      - destruct (decide (c ∈ ks)) as [Hin|Hin].
        + rewrite decide_True by (by right). simpl. lia.
        + rewrite decide_False
            by (rewrite elem_of_cons; intros [?|?]; done). simpl. lia. }
    rewrite IH. by destruct (decide (c ∈ ks)).
Qed.

Lemma flat_map_ext_in {A B} (f g : A -> list B) (l : list A) :
  (forall x, x ∈ l -> f x = g x) -> flat_map f l = flat_map g l.
Proof.
  induction l as [|x l IH]; intros H; [done|]. simpl.
  rewrite H by left. f_equal. apply IH. intros y Hy. apply H. by right.
Qed.

Lemma non_missing_with_label (rows : list (cell * option Qc)) :
  non_missing (map snd (filter (fun p => notna (fst p) = true) rows))
  = flat_map (fun row => if notna (fst row)
                         then option_list (snd row) else []) rows.
Proof.
  unfold non_missing. induction rows as [|[l v] rows IH]; [done|].
  rewrite filter_cons. cbn [fst snd flat_map].
  destruct (notna l) eqn:E.
  - rewrite decide_True by done. destruct v; cbn; by rewrite <- IH.
  - rewrite decide_False by done. exact IH.
Qed.

Section AggregatorInvariants.
Context (df : DataFrame) (keys : list cell) (tpv markup : list (option Qc)).
Context (Hdf : Consolidated df keys tpv markup).




End AggregatorInvariants.

(** ** Frames the aggregator refuses *)

Lemma getitem_absent df key :
  key ∉ labels df -> getitem df key = raise (KeyError key).
Proof. intros H%columns_named_nil. unfold getitem. by rewrite H. Qed.






(** * Further properties of the monthly series *)

Section MonthlyInvariants.
Context (df : DataFrame) (keys data : list cell).
Context (tpv markup : list (option Qc)).
Context (Hdf : Consolidated df keys tpv markup) (Hwf : wf_frame df).
Context (Hdata : columns_named "Data" df = [data]).
Context (Hdt : Forall datetime_or_missing data).
Context (Hnew : "AnoMes" ∉ labels df).


End MonthlyInvariants.

(** X16.  No series is computed, and nothing is raised, when the dataset
    has no column [Data] or when every date is missing. *)
Theorem ts_summary_not_computed df :
  ("Data" ∉ labels df -> ts_summary df = mret None)
  /\ (forall data,
        wf_frame df -> columns_named "Data" df = [data] ->
        Forall (fun c => c = NaN) data ->
        ts_summary df = mret None).
Proof.
  split.
  - intros H. unfold ts_summary. by rewrite bool_decide_eq_false_2.
  - intros data Hwf Hdata Hall. unfold ts_summary.
    destruct (bool_decide _); [|done].
    assert (empty (dropna "Data" df) = true) as ->; [|done].
    unfold empty. apply orb_true_iff. left. apply bool_decide_eq_true_2.
    rewrite (nrows_dropna _ _ _ Hwf Hdata).
    rewrite (filter_none (fun c => notna c = true)); [done|].
    eapply Forall_impl; [exact Hall|]. by intros c ->.
Qed.


Lemma ts_summary_not_computed_witness :
  ts_summary (coerced Sample.coercers (normalized Sample.acme_csv))
  = mret None
  /\ ts_summary
       (MkFrame 2 [("Data", [NaN; NaN]); ("Tpv", [Sample.n 1; NaN])])
     = mret None.
Proof.
  split.
  - apply ts_summary_not_computed. compute_done.
  - apply (proj2 (ts_summary_not_computed _) [NaN; NaN]).
    + repeat constructor.
    + reflexivity.
    + repeat constructor.
Defined.

(** * Properties of the script *)

(** ** Scripts *)

Lemma script_eta {A} (s : Script A) : MkScript (result s) (effects s) = s.
Proof. by destruct s. Qed.

Lemma script_bind_inr {A B} (m : Script A) (k : A -> Script B) a :
  result m = inr a ->
  m ≫= k = MkScript (result (k a)) (effects m ++ effects (k a)).
Proof. unfold mbind, Script_bind. by intros ->. Qed.

Lemma script_bind_inl {A B} (m : Script A) (k : A -> Script B) e :
  result m = inl e -> m ≫= k = MkScript (inl e) (effects m).
Proof. unfold mbind, Script_bind. by intros ->. Qed.

Lemma in_effects_bind {A B} (m : Script A) (k : A -> Script B) x :
  x ∈ effects (m ≫= k) ->
  x ∈ effects m \/ exists a, result m = inr a /\ x ∈ effects (k a).
Proof.
  unfold mbind, Script_bind. destruct (result m) as [e|a]; simpl.
  - by left.
  - intros [?|?]%elem_of_app; [by left | right; eauto].
Qed.

Lemma written_bind {A B} (m : Script A) (k : A -> Script B) a :
  result m = inr a -> written (m ≫= k) = (written m ++ written (k a))%list.
Proof.
  intros H. rewrite (script_bind_inr _ _ _ H). unfold written. simpl.
  apply omap_app.
Qed.

Lemma result_bind {A B} (m : Script A) (k : A -> Script B) a :
  result m = inr a -> result (m ≫= k) = result (k a).
Proof. intros H. by rewrite (script_bind_inr _ _ _ H). Qed.

Lemma written_call {A} (m : Run A) : written (call m) = [].
Proof.
  unfold written, call. simpl. induction (printed m) as [|n l IH]; done.
Qed.

Lemma not_written_by_call {A} (m : Run A) path fig :
  WriteHtml path fig ∉ effects (call m).
Proof. unfold call. simpl. by intros (n & ? & _)%list_elem_of_fmap. Qed.

Lemma not_written_by_say l path fig : WriteHtml path fig ∉ effects (say l).
Proof. unfold say. simpl. by intros ?%list_elem_of_singleton. Qed.

Lemma not_written_by_make_dirs disk dir path fig :
  WriteHtml path fig ∉ effects (make_dirs disk dir).
Proof.
  unfold make_dirs. destruct (mkdir disk dir); simpl.
  - by intros ?%elem_of_nil.
  - by intros ?%list_elem_of_singleton.
Qed.

Lemma written_by_write disk path' fig' path fig :
  WriteHtml path fig ∈ effects (write disk path' fig') ->
  path = path' /\ fig = fig'.
Proof.
  unfold write. destruct (write_html disk path' fig'); simpl.
  - by intros ?%elem_of_nil.
  - by intros [= -> ->]%list_elem_of_singleton.
Qed.

(** ** The order of the rows of a chart *)

#[global] Instance desc_trans : Transitive desc.
Proof.
  intros [x|] [y|] [z|]; simpl; try done. intros H1 H2.
  exact (Qcle_trans _ _ _ H2 H1).
Qed.

#[global] Instance desc_total : Total desc.
Proof.
  intros [x|] [y|]; simpl; auto.
  destruct (Qclt_le_dec x y) as [H|H]; [right; by apply Qclt_le_weak | by left].
Qed.

#[global] Instance desc_by_trans {A} (col : A -> option Qc)
  : Transitive (desc_by col).
Proof. intros a b c. unfold desc_by. apply desc_trans. Qed.

#[global] Instance desc_by_total {A} (col : A -> option Qc)
  : Total (desc_by col).
Proof. intros a b. unfold desc_by. apply desc_total. Qed.

(** [sort_values] rearranges the rows and puts the column in order. *)
Lemma sort_values_desc_sorted {A} (col : A -> option Qc) rows :
  StronglySorted desc (map col (sort_values_desc col rows)).
Proof.
  unfold sort_values_desc.
  assert (StronglySorted (desc_by col) (merge_sort (desc_by col) rows)) as H
    by (apply StronglySorted_merge_sort; apply _).
  induction H as [|a l _ IH Hall]; [constructor|].
  cbn [map]. constructor; [exact IH|].
  apply Forall_forall. intros y Hy%list_elem_of_In%in_map_iff.
  destruct Hy as (b & <- & Hb%list_elem_of_In).
  rewrite Forall_forall in Hall. by apply Hall.
Qed.

Lemma sort_values_desc_Permutation {A} (col : A -> option Qc) rows :
  sort_values_desc col rows ≡ₚ rows.
Proof. apply merge_sort_Permutation. Qed.

(** The months of a series that was computed are strictly ascending. *)
Lemma ts_summary_sorted df series :
  returns (ts_summary df) (Some series) ->
  StronglySorted cell_lt (map Monthly.AnoMes series).
Proof.
  unfold ts_summary. destruct (bool_decide _); [|by intros ?%returns_mret_inv].
  destruct (negb _); [|by intros ?%returns_mret_inv].
  intros (arg & _ & H)%bind_returns.
  apply bind_returns in H as (values & _ & H).
  apply bind_returns in H as (ks & _ & H).
  apply bind_returns in H as (tpv & _ & H).
  apply bind_returns in H as (markup & _ & H).
  apply returns_mret_inv in H. injection H as ->.
  rewrite map_map. cbn. rewrite map_id. apply group_keys_sorted.
Qed.

(** ** What [main] writes *)

Section MainClaims.
Context (w : World) (P : Coercers) (disk : Disk).
Context (data_dir report_dir : string).

Local Abbreviation main' := (main w P disk data_dir report_dir).
Local Abbreviation load := (load_data w P data_dir None).

(** Every chart [main] writes is one of four, drawn from a dataset that
    was loaded and a summary that was computed. *)
Lemma main_chart path fig :
  WriteHtml path fig ∈ effects main' ->
  exists df summary,
    returns load df /\ returns (compute_summary df) summary
    /\ ((path = Py.path_join report_dir "tpv_por_cliente.html"
         /\ fig = bar_chart "TPV total por cliente" "Cliente" "TPV Total"
                    (sort_values_desc (fun r => Some (Tpv_Total r)) summary)
                    (fun r => Some (Tpv_Total r)))
        \/ (path = Py.path_join report_dir "markup_por_cliente.html"
            /\ fig = bar_chart "Markup médio por cliente" "Cliente"
                       "Markup médio"
                       (sort_values_desc Markup_Medio summary) Markup_Medio)
        \/ exists ts,
             returns (ts_summary df) (Some ts)
             /\ ((path = Py.path_join report_dir "tpv_ao_longo_do_tempo.html"
                  /\ fig = line_chart "Evolução do TPV ao longo do tempo"
                             "Data" "TPV Total" ts
                             (fun r => Some (Monthly.Tpv_Total r)))
                 \/ (path = Py.path_join report_dir
                              "markup_ao_longo_do_tempo.html"
                     /\ fig = line_chart
                                "Evolução do markup médio ao longo do tempo"
                                "Data" "Markup médio" ts
                                Monthly.Markup_Medio))).
Proof.
  unfold main.
  intros [H|(_ & _ & H)]%in_effects_bind;
    [by apply not_written_by_make_dirs in H|].
  apply in_effects_bind in H as [H|(_ & _ & H)];
    [by apply not_written_by_say in H|].
  apply in_effects_bind in H as [H|(df & Hdf & H)];
    [by apply not_written_by_call in H|].
  apply in_effects_bind in H as [H|(summary & Hs & H)];
    [by apply not_written_by_call in H|].
  exists df, summary. split; [exact Hdf|]. split; [exact Hs|].
  apply in_effects_bind in H as [H|(_ & _ & H)];
    [by apply not_written_by_say in H|].
  apply in_effects_bind in H as [H|(_ & _ & H)];
    [by apply not_written_by_say in H|].
  apply in_effects_bind in H as [H|(_ & _ & H)];
    [left; by apply written_by_write in H|].
  apply in_effects_bind in H as [H|(_ & _ & H)];
    [by apply not_written_by_say in H|].
  apply in_effects_bind in H as [H|(_ & _ & H)];
    [right; left; by apply written_by_write in H|].
  apply in_effects_bind in H as [H|(_ & _ & H)];
    [by apply not_written_by_say in H|].
  apply in_effects_bind in H as [H|(series & Hts & H)];
    [by apply not_written_by_call in H|].
  apply in_effects_bind in H as [H|(_ & _ & H)];
    [|by apply not_written_by_say in H].
  destruct series as [ts|]; [|by apply elem_of_nil in H].
  right. right. exists ts. split; [exact Hts|].
  apply in_effects_bind in H as [H|(_ & _ & H)];
    [left; by apply written_by_write in H|].
  apply in_effects_bind in H as [H|(_ & _ & H)];
    [by apply not_written_by_say in H|].
  apply in_effects_bind in H as [H|(_ & _ & H)];
    [right; by apply written_by_write in H|].
  by apply not_written_by_say in H.
Qed.

Lemma result_bind_case {A B} (m : Script A) (k : A -> Script B) :
  result (m ≫= k)
  = match result m with inl e => inl e | inr a => result (k a) end.
Proof. unfold mbind, Script_bind. by destruct (result m). Qed.

Lemma written_bind_case {A B} (m : Script A) (k : A -> Script B) :
  written (m ≫= k)
  = (written m
     ++ match result m with inl _ => [] | inr a => written (k a) end)%list.
Proof.
  unfold mbind, Script_bind, written. destruct (result m); simpl.
  - by rewrite app_nil_r.
  - apply omap_app.
Qed.

Lemma result_say l : result (say l) = inr tt.
Proof. reflexivity. Qed.

Lemma written_say l : written (say l) = [].
Proof. reflexivity. Qed.

Lemma result_call {A} (m : Run A) : result (call m) = outcome m.
Proof. reflexivity. Qed.

(** X17.  When the loader raises, [main] has created the report
    directory, printed its first line and the loader's notices, and ends
    with the loader's exception: nothing else is done. *)
Theorem main_failed_load e :
  mkdir disk report_dir = None -> raises load e ->
  main'
  = MkScript (inl e)
      (MakeDirs report_dir :: Say (Reading data_dir)
       :: map Notice (printed load)).
Proof.
  intros Hmk He. unfold main.
  assert (make_dirs disk report_dir = MkScript (inr tt) [MakeDirs report_dir])
    as -> by (unfold make_dirs; by rewrite Hmk).
  rewrite (script_bind_inr _ _ tt) by done.
  rewrite (script_bind_inr (say _) _ tt) by done.
  rewrite (script_bind_inl (call load) _ e) by exact He.
  reflexivity.
Qed.

(** X18.  [main] writes no chart from a run that did not load a dataset
    and compute its summary: a chart file exists only if [load_data] and
    [compute_summary] both returned. *)
Theorem main_writes_after_summary :
  written main' <> [] ->
  exists df summary, returns load df /\ returns (compute_summary df) summary.
Proof.
  intros H. destruct (written main') as [|path paths] eqn:E; [done|].
  assert (path ∈ written main') as Hin by (rewrite E; left).
  apply list_elem_of_omap in Hin as (x & Hx & Hpath).
  destruct x as [| | |path' fig]; try discriminate.
  apply main_chart in Hx as (df & summary & Hdf & Hs & _). eauto.
Qed.

(** X19.  With a disk that accepts everything, a run in which the three
    computations return ends normally and writes the two bar charts, then
    the two time charts when a monthly series was computed, in that
    order and under these names. *)
Theorem main_written_files df summary series :
  mkdir disk report_dir = None ->
  (forall path fig, write_html disk path fig = None) ->
  returns load df -> returns (compute_summary df) summary ->
  returns (ts_summary df) series ->
  result main' = inr tt
  /\ written main'
     = ([ Py.path_join report_dir "tpv_por_cliente.html";
          Py.path_join report_dir "markup_por_cliente.html" ]
        ++ match series with
           | Some _ =>
               [ Py.path_join report_dir "tpv_ao_longo_do_tempo.html";
                 Py.path_join report_dir "markup_ao_longo_do_tempo.html" ]
           | None => []
           end)%list.
Proof.
  intros Hmk Hw Hdf Hs Hts. unfold returns in Hdf, Hs, Hts.
  assert (result (make_dirs disk report_dir) = inr tt) as Hmd
    by (unfold make_dirs; by rewrite Hmk).
  assert (written (make_dirs disk report_dir) = []) as Hmd'
    by (unfold make_dirs, written; by rewrite Hmk).
  assert (forall path fig, result (write disk path fig) = inr tt) as Hwr
    by (intros path fig; unfold write; by rewrite Hw).
  assert (forall path fig, written (write disk path fig) = [path]) as Hwr'
    by (intros path fig; unfold write, written; by rewrite Hw).
  unfold main. cbv zeta. split.
  - repeat (rewrite ?result_bind_case, ?Hmd, ?result_say, ?Hwr, ?result_call,
              ?Hdf, ?Hs, ?Hts;
            cbv beta iota).
    destruct series; [|done].
    repeat (rewrite ?result_bind_case, ?result_say, ?Hwr; cbv beta iota).
    done.
  - repeat (rewrite ?written_bind_case, ?result_bind_case, ?Hmd, ?Hmd',
              ?result_say,
              ?written_say, ?Hwr, ?Hwr', ?result_call, ?written_call,
              ?Hdf, ?Hs, ?Hts;
            cbv beta iota).
    destruct series;
      repeat (rewrite ?written_bind_case, ?result_bind_case, ?result_say,
                ?written_say, ?Hwr, ?Hwr';
              cbv beta iota);
      reflexivity.
Qed.

(** X20.  In every bar chart [main] writes, each customer of the summary
    has one bar, and the bars come by value descending with the undefined
    values last; in every line chart the months come strictly ascending. *)
Theorem main_chart_order path fig :
  WriteHtml path fig ∈ effects main' ->
  length (fig_x fig) = length (fig_y fig)
  /\ match fig_kind fig with
     | BarChart =>
         StronglySorted desc (fig_y fig)
         /\ exists df summary,
              returns load df /\ returns (compute_summary df) summary
              /\ fig_x fig ≡ₚ map Cliente summary
     | LineChart => StronglySorted cell_lt (fig_x fig)
     end.
Proof.
  intros (df & summary & Hdf & Hs &
          [[_ ->]|[[_ ->]|(ts & Hts & [[_ ->]|[_ ->]])]])%main_chart;
    cbn [fig_kind fig_x fig_y bar_chart line_chart];
    (split; [by rewrite !length_map|]).
  - split; [apply sort_values_desc_sorted|]. exists df, summary.
    repeat split; try done.
    apply Permutation_map, sort_values_desc_Permutation.
  - split; [apply sort_values_desc_sorted|]. exists df, summary.
    repeat split; try done.
    apply Permutation_map, sort_values_desc_Permutation.
  - by apply (ts_summary_sorted df).
  - by apply (ts_summary_sorted df).
Qed.

End MainClaims.

Lemma main_failed_load_witness :
  main (Sample.directory [("leia-me.txt", inl "")]) Sample.coercers
    willing_disk "data" "reports"
  = MkScript (inl no_valid_file)
      [ MakeDirs "reports"; Say (Reading "data");
        Notice (Unsupported "leia-me.txt") ].
Proof.
  apply (main_failed_load (Sample.directory [("leia-me.txt", inl "")])
           Sample.coercers willing_disk "data" "reports" no_valid_file);
    reflexivity.
Defined.

Lemma main_writes_after_summary_witness :
  exists df summary,
    returns (load_data Sample.acme_world Sample.coercers "data" None) df
    /\ returns (compute_summary df) summary.
Proof.
  apply (main_writes_after_summary Sample.acme_world Sample.coercers
           willing_disk "data" "reports").
  vm_compute. discriminate.
Defined.

Lemma main_written_files_witness :
  result (main Sample.mixed_world Sample.coercers willing_disk "data"
            "reports") = inr tt
  /\ written (main Sample.mixed_world Sample.coercers willing_disk "data"
                "reports")
     = [ "reports/tpv_por_cliente.html"; "reports/markup_por_cliente.html";
         "reports/tpv_ao_longo_do_tempo.html";
         "reports/markup_ao_longo_do_tempo.html" ].
Proof.
  eapply (main_written_files Sample.mixed_world Sample.coercers willing_disk
            "data" "reports" _ _ (Some _)).
  - reflexivity.
  - reflexivity.
  - vm_compute. reflexivity.
  - vm_compute. reflexivity.
  - vm_compute. reflexivity.
Defined.

Lemma main_chart_order_witness :
  exists path fig,
    WriteHtml path fig
      ∈ effects (main Sample.mixed_world Sample.coercers willing_disk "data"
                   "reports")
    /\ fig_kind fig = LineChart
    /\ length (fig_x fig) = length (fig_y fig)
    /\ StronglySorted cell_lt (fig_x fig).
Proof.
  exists "reports/tpv_ao_longo_do_tempo.html".
  eexists.
  assert (WriteHtml "reports/tpv_ao_longo_do_tempo.html"
            (MkFigure LineChart "Evolução do TPV ao longo do tempo" "Data"
               "TPV Total"
               [ Date (MkTimestamp 2023 12 1 0);
                 Date (MkTimestamp 2024 1 1 0) ]
               [ Some (Sample.Qc_of_Z 0); Some (Sample.Qc_of_Z 100) ] None)
          ∈ effects (main Sample.mixed_world Sample.coercers willing_disk
                       "data" "reports")) as H.
  { vm_compute. do 10 right. left. }
  split; [exact H|]. split; [reflexivity|].
  exact (main_chart_order Sample.mixed_world Sample.coercers willing_disk
           "data" "reports" _ _ H).
Defined.
